(** * Cross-entropy method on CartPole: the episode generator, the elite
      filter and the training loop of [cart-pole.ipynb].

    Rewards, percentiles and means are Python floats in the notebook; they
    are modelled here as exact rationals [Q] (the data model calls them real
    numbers), so every equation on them is stated with [==].  Calls that can
    raise return a [result]. *)

From Stdlib Require Import List ZArith QArith Qround Lia Lqa Bool Permutation.
Import ListNotations.

Set Implicit Arguments.

(** ** Exceptions *)

Inductive exn : Type :=
| ValueError   (* numpy: percentile out of range, bad probability vector *)
| IndexError   (* numpy: no element to take from an empty array *)
| RuntimeError (* torch: the scorer or the optimizer rejected its input *)
| EnvError.    (* gym: the environment rejected the action *)

Inductive result (A : Type) : Type :=
| Ok (a : A)
| Raise (e : exn).

Arguments Ok {A} a.
Arguments Raise {A} e.

Definition bind {A B : Type} (r : result A) (k : A -> result B) : result B :=
  match r with
  | Ok a => k a
  | Raise e => Raise e
  end.

Notation "x <- r ;; k" := (bind r (fun x => k))
  (at level 61, r at next level, right associativity).

(** ** Data model: the two namedtuples *)

Definition Action := nat.

Section Records.
Variable Obs : Type.

Record EpisodeStep : Type := mkStep { observation : Obs; action : Action }.

Record Episode : Type := mkEpisode { reward : Q; steps : list EpisodeStep }.

Definition Batch := list Episode.
End Records.

Arguments mkStep {Obs} _ _.
Arguments mkEpisode {Obs} _ _.
Arguments observation {Obs} _.
Arguments action {Obs} _.
Arguments reward {Obs} _.
Arguments steps {Obs} _.

(** ** The numpy calls of [filter_batch] *)

Module Np.

(** Python's [x < y] on two numbers. *)
Definition Qltb (x y : Q) : bool := negb (Qle_bool y x).

Fixpoint insert (x : Q) (l : list Q) : list Q :=
  match l with
  | [] => [x]
  | y :: l' => if Qle_bool x y then x :: l else y :: insert x l'
  end.

(** The order statistics of an array: its values in ascending order. *)
Fixpoint sort (l : list Q) : list Q :=
  match l with
  | [] => []
  | x :: l' => insert x (sort l')
  end.

Definition sum (l : list Q) : Q := fold_left Qplus l 0.

(** Modelled from the spec: [np.mean] belongs to numpy, which is not part
    of the notebook; "arithmetic mean of episode rewards". *)
Definition mean (l : list Q) : Q := sum l / inject_Z (Z.of_nat (length l)).

(** Modelled from the spec: [np.percentile] belongs to numpy, which is not
    part of the notebook; "the value at [percentile] (0-100) of the batch's
    episode-reward values, using linear interpolation between order
    statistics".  With [n] values the percentile [q] sits at the virtual
    index [q/100 * (n-1)] of the sorted values; the result interpolates
    between the two neighbouring order statistics.  A percentile outside
    [0, 100] is rejected before the data is looked at, and an empty array
    has no order statistic to take. *)
Definition percentile (a : list Q) (q : Q) : result Q :=
  if negb (Qle_bool 0 q && Qle_bool q 100) then Raise ValueError
  else match a with
       | [] => Raise IndexError
       | _ :: _ =>
           let n := length a in
           let virtual_index := (q / 100) * inject_Z (Z.of_nat (n - 1)) in
           let previous := Z.to_nat (Qfloor virtual_index) in
           let next := Nat.min (previous + 1) (n - 1) in
           let gamma := virtual_index - inject_Z (Qfloor virtual_index) in
           let lo := nth previous (sort a) 0 in
           let hi := nth next (sort a) 0 in
           Ok (lo + (hi - lo) * gamma)
       end.

(** Python's [max] and [min] of a non-empty list (0 stands for the
    [ValueError] of the empty one, which no statement below reaches). *)
Definition maximum (l : list Q) : Q :=
  match l with
  | [] => 0
  | x :: l' => fold_left (fun m y => if Qltb m y then y else m) l' x
  end.

Definition minimum (l : list Q) : Q :=
  match l with
  | [] => 0
  | x :: l' => fold_left (fun m y => if Qltb y m then y else m) l' x
  end.

(** Ascending order: every value is at most every later one. *)
Fixpoint ascending (l : list Q) : Prop :=
  match l with
  | [] => True
  | x :: l' => (forall y, In y l' -> x <= y) /\ ascending l'
  end.

(** The position of percentile [q] among [n] sorted values. *)
Definition virtual_index (n : nat) (q : Q) : Q :=
  (q / 100) * inject_Z (Z.of_nat (n - 1)).

(** The value [percentile] returns when it returns. *)
Definition interpolated (a : list Q) (q : Q) : Q :=
  let v := virtual_index (length a) q in
  let previous := Z.to_nat (Qfloor v) in
  let next := Nat.min (previous + 1) (length a - 1) in
  let lo := nth previous (sort a) 0 in
  let hi := nth next (sort a) 0 in
  lo + (hi - lo) * (v - inject_Z (Qfloor v)).

End Np.

(** ** The elite filter *)

Section EliteFilter.
Variable Obs : Type.

(** The tuple [filter_batch] returns. *)
Record TrainingSet : Type := mkTrainingSet {
  train_obs_v : list Obs;
  train_act_v : list Action;
  reward_bound : Q;
  reward_mean : Q
}.

(** One turn of the [for example in batch] loop: [continue] below the
    bound, otherwise both lists are extended with the episode's steps. *)
Definition filter_step (bound : Q) (acc : list Obs * list Action)
    (example : Episode Obs) : list Obs * list Action :=
  if Np.Qltb (reward example) bound then acc
  else (fst acc ++ map observation (steps example),
        snd acc ++ map action (steps example)).

Definition filter_batch (batch : Batch Obs) (percentile : Q)
    : result TrainingSet :=
  let rewards := map reward batch in
  bound <- Np.percentile rewards percentile ;;
  let mean := Np.mean rewards in
  let train := fold_left (filter_step bound) batch ([], []) in
  Ok (mkTrainingSet (fst train) (snd train) bound mean).

(** An episode is elite when it is not skipped by the loop. *)
Definition elite (bound : Q) (example : Episode Obs) : bool :=
  Qle_bool bound (reward example).

(** What an episode adds to the training lists under a given bound. *)
Definition contribution (bound : Q) (example : Episode Obs)
    : list (EpisodeStep Obs) :=
  if elite bound example then steps example else [].

(** Every episode of the batch has at least one step. *)
Definition nonempty_episodes (batch : Batch Obs) : Prop :=
  Forall (fun example => steps example <> []) batch.

Definition total_steps (batch : Batch Obs) : nat :=
  length (flat_map steps batch).

End EliteFilter.

Arguments mkTrainingSet {Obs} _ _ _ _.
Arguments train_obs_v {Obs} _.
Arguments train_act_v {Obs} _.
Arguments reward_bound {Obs} _.
Arguments reward_mean {Obs} _.
Arguments filter_step {Obs} _ _ _.
Arguments filter_batch {Obs} _ _.
Arguments elite {Obs} _ _.
Arguments contribution {Obs} _ _.
Arguments nonempty_episodes {Obs} _.
Arguments total_steps {Obs} _.

(** ** The episode generator *)

(** One entry of a float tensor: the scorer's outputs and the probabilities
    computed from them can be non-finite. *)
Inductive score : Type :=
| Finite (q : Q)
| PosInf
| NegInf
| NaN.

Definition is_finite (x : score) : bool :=
  match x with
  | Finite _ => true
  | _ => false
  end.

Section Generator.
Variables Obs EnvSt Rng : Type.

(** The gym environment: [reset()] and [step(action)] act on the
    simulator's own state. *)
Record Environment : Type := mkEnvironment {
  env_reset : EnvSt -> Obs * EnvSt;
  env_step : EnvSt -> Action -> result (Obs * Q * bool * EnvSt)
}.

(** [nn.Softmax(dim=1)] on the single row of scores. *)
Variable Softmax : list score -> list score.

(** [np.random.choice(n, p=probs)]: draws from numpy's global generator
    state, and raises when it rejects [probs]. *)
Variable random_choice : Rng -> nat -> list score -> result (Action * Rng).

Variable env : Environment.

(** The locals of the suspended generator frame, with the state of the
    two objects it drives. *)
Record GenState : Type := mkGenState {
  g_batch : Batch Obs;
  g_episode_reward : Q;
  g_episode_steps : list (EpisodeStep Obs);
  g_obs : Obs;
  g_env : EnvSt;
  g_rng : Rng
}.

(** The statements before [while True]. *)
Definition gen_init (e : EnvSt) (r : Rng) : GenState :=
  let (obs, e') := env_reset env e in
  mkGenState [] 0 [] obs e' r.

(** The probabilities handed to the sampler. *)
Definition act_probs (net : Obs -> list score) (g : GenState) : list score :=
  Softmax (net (g_obs g)).

(** The episode closed by a turn of the loop that saw [is_done]. *)
Definition closed_episode (g : GenState) (a : Action) (r : Q) : Episode Obs :=
  mkEpisode (g_episode_reward g + r)
            (g_episode_steps g ++ [mkStep (g_obs g) a]).

(** One turn of [while True]; [Some batch] when it reaches [yield].  The
    frame returned with a yielded batch is the one the next turn starts
    from: [batch = []] and [obs = next_obs], which the generator runs when
    it is resumed, are already done in it. *)
Definition loop_body (net : Obs -> list score) (batch_size : Z) (g : GenState)
    : result (option (Batch Obs) * GenState) :=
  let probs := act_probs net g in
  sampled <- random_choice (g_rng g) (length probs) probs ;;
  let (action, rng) := sampled in
  stepped <- env_step env (g_env g) action ;;
  let '(next_obs, reward, is_done, e) := stepped in
  let episode_reward := g_episode_reward g + reward in
  let episode_steps := g_episode_steps g ++ [mkStep (g_obs g) action] in
  if is_done then
    let batch := g_batch g ++ [mkEpisode episode_reward episode_steps] in
    let (next_obs', e') := env_reset env e in
    if (Z.of_nat (length batch) =? batch_size)%Z
    then Ok (Some batch, mkGenState [] 0 [] next_obs' e' rng)
    else Ok (None, mkGenState batch 0 [] next_obs' e' rng)
  else
    Ok (None,
        mkGenState (g_batch g) episode_reward episode_steps next_obs e rng).

(** The action of a draw, without the generator state it leaves. *)
Definition drawn (c : result (Action * Rng)) : result Action :=
  match c with
  | Ok (a, _) => Ok a
  | Raise x => Raise x
  end.

(** Two generator frames that agree on everything but the state of the
    random generator. *)
Definition same_frame (g1 g2 : GenState) : Prop :=
  g_batch g1 = g_batch g2 /\
  g_episode_reward g1 = g_episode_reward g2 /\
  g_episode_steps g1 = g_episode_steps g2 /\
  g_obs g1 = g_obs g2 /\
  g_env g1 = g_env g2.

(** What a [next()] on the generator comes back with. *)
Inductive pull : Type :=
| Yielded (batch : Batch Obs) (g : GenState)
| Raised (e : exn)
| OutOfFuel.

(** Resume the generator and run it to its next [yield]. *)
Fixpoint next_batch (fuel : nat) (net : Obs -> list score) (batch_size : Z)
    (g : GenState) : pull :=
  match fuel with
  | O => OutOfFuel
  | S fuel' =>
      match loop_body net batch_size g with
      | Raise e => Raised e
      | Ok (Some batch, g') => Yielded batch g'
      | Ok (None, g') => next_batch fuel' net batch_size g'
      end
  end.

(** Successive pulls, the scorer being the one in force at each pull
    (its parameters change between pulls); the batches emitted so far. *)
Fixpoint emitted (fuel : nat) (nets : list (Obs -> list score))
    (batch_size : Z) (g : GenState) : list (Batch Obs) :=
  match nets with
  | [] => []
  | net :: nets' =>
      match next_batch fuel net batch_size g with
      | Yielded batch g' => batch :: emitted fuel nets' batch_size g'
      | Raised _ | OutOfFuel => []
      end
  end.

End Generator.

Arguments mkEnvironment {Obs EnvSt} _ _.
Arguments env_reset {Obs EnvSt} _ _.
Arguments env_step {Obs EnvSt} _ _ _.
Arguments mkGenState {Obs EnvSt Rng} _ _ _ _ _ _.
Arguments g_batch {Obs EnvSt Rng} _.
Arguments g_episode_reward {Obs EnvSt Rng} _.
Arguments g_episode_steps {Obs EnvSt Rng} _.
Arguments g_obs {Obs EnvSt Rng} _.
Arguments g_env {Obs EnvSt Rng} _.
Arguments g_rng {Obs EnvSt Rng} _.
Arguments Yielded {Obs EnvSt Rng} _ _.
Arguments Raised {Obs EnvSt Rng} _.
Arguments OutOfFuel {Obs EnvSt Rng}.

(** ** The training loop *)

Definition BATCH_SIZE : Z := 16.
Definition PERCENTILE : Q := 70.

(** The mean reward above which the loop breaks. *)
Definition SOLVED : Q := 199.

(** What [print] and the summary writer receive. *)
Inductive log_line : Type :=
| Report (iter_no : nat) (loss reward_m reward_b : Q)
| SolvedMsg.

Section Trainer.
Variables Obs EnvSt Rng Params : Type.

Variable Softmax : list score -> list score.
Variable random_choice : Rng -> nat -> list score -> result (Action * Rng).
Variable env : Environment Obs EnvSt.

(** [net(x)] under the current parameters. *)
Variable forward : Params -> Obs -> list score.

(** [zero_grad], forward pass, loss, [backward] and [optimizer.step] on the
    training tensors: the new parameters and the loss. *)
Variable update : Params -> list Obs -> list Action -> result (Params * Q).

Record Trainer : Type := mkTrainer {
  t_params : Params;
  t_gen : GenState Obs EnvSt Rng;
  t_iter_no : nat;
  t_log : list log_line
}.

(** The body of the [for] loop on the batch it was handed: the new
    parameters, the lines written, and whether it reached [break]. *)
Definition iteration (p : Params) (iter_no : nat) (batch : Batch Obs)
    : result (Params * list log_line * bool) :=
  ts <- filter_batch batch PERCENTILE ;;
  updated <- update p (train_obs_v ts) (train_act_v ts) ;;
  let (p', loss) := updated in
  let line := Report iter_no loss (reward_mean ts) (reward_bound ts) in
  if Np.Qltb SOLVED (reward_mean ts)
  then Ok (p', [line; SolvedMsg], true)
  else Ok (p', [line], false).

Inductive status : Type :=
| Continue (t : Trainer)      (* back at the head of the loop *)
| Solved (t : Trainer)        (* left the loop through [break] *)
| Crashed (e : exn)
| Starved.                    (* the generator did not yield within the fuel *)

(** One turn of the [for] loop: pull a batch, then run the body. *)
Definition trainer_step (fuel : nat) (t : Trainer) : status :=
  match next_batch Softmax random_choice env fuel
          (forward (t_params t)) BATCH_SIZE (t_gen t) with
  | OutOfFuel => Starved
  | Raised e => Crashed e
  | Yielded batch g' =>
      match iteration (t_params t) (t_iter_no t) batch with
      | Raise e => Crashed e
      | Ok (p', lines, solved) =>
          let t' := mkTrainer p' g' (S (t_iter_no t)) (t_log t ++ lines) in
          if solved then Solved t' else Continue t'
      end
  end.

(** The loop, cut off after [iters] turns. *)
Fixpoint training_loop (iters fuel : nat) (t : Trainer) : status :=
  match iters with
  | O => Continue t
  | S iters' =>
      match trainer_step fuel t with
      | Continue t' => training_loop iters' fuel t'
      | final => final
      end
  end.

(** The batches the loop has pulled from the generator when it is cut off
    or stops. *)
Fixpoint pulled_batches (iters fuel : nat) (t : Trainer) : list (Batch Obs) :=
  match iters with
  | O => []
  | S iters' =>
      match next_batch Softmax random_choice env fuel
              (forward (t_params t)) BATCH_SIZE (t_gen t) with
      | Yielded batch _ =>
          batch :: match trainer_step fuel t with
                   | Continue t' => pulled_batches iters' fuel t'
                   | _ => []
                   end
      | _ => []
      end
  end.

End Trainer.

Arguments mkTrainer {Obs EnvSt Rng Params} _ _ _ _.
Arguments t_params {Obs EnvSt Rng Params} _.
Arguments t_gen {Obs EnvSt Rng Params} _.
Arguments t_iter_no {Obs EnvSt Rng Params} _.
Arguments t_log {Obs EnvSt Rng Params} _.

(** ** Episodes of a scripted length *)

Section ScriptedShape.
Variables Obs EnvSt Rng : Type.
Variable Softmax : list score -> list score.
Variable random_choice : Rng -> nat -> list score -> result (Action * Rng).

(** An episode of [K] steps of reward 1.0 each. *)
Definition K_episode (K : nat) (example : Episode Obs) : Prop :=
  reward example == inject_Z (Z.of_nat K) /\ length (steps example) = K.

(** A batch of exactly [batch_size] such episodes. *)
Definition K_batch (K : nat) (batch_size : Z) (batch : Batch Obs) : Prop :=
  Z.of_nat (length batch) = batch_size /\ Forall (K_episode K) batch.

(** The sampler accepts the probabilities of this scorer. *)
Definition sampler_accepts (net : Obs -> list score) : Prop :=
  forall rng o, exists a rng',
    random_choice rng (length (Softmax (net o))) (Softmax (net o))
      = Ok (a, rng').

(** Turns of the loop left before the next [yield], the environment having
    taken [c] steps of the current episode. *)
Definition turns_left (K : nat) (batch_size : Z) (c : nat)
    (g : GenState Obs EnvSt Rng) : nat :=
  K * (Z.to_nat batch_size - length (g_batch g)) - c.

(** What holds of the frame between two turns of the loop on an environment
    of scripted episode length [K], [count] reading the steps taken in the
    current episode off the environment state. *)
Definition scripted_frame (K : nat) (count : EnvSt -> nat)
    (g : GenState Obs EnvSt Rng) : Prop :=
  Forall (K_episode K) (g_batch g) /\
  count (g_env g) = length (g_episode_steps g) /\
  (count (g_env g) < K)%nat /\
  g_episode_reward g == inject_Z (Z.of_nat (count (g_env g))).

(** The same with a positive [batch_size], which the batch under
    construction has not reached. *)
Definition scripted_inv (K : nat) (batch_size : Z) (count : EnvSt -> nat)
    (g : GenState Obs EnvSt Rng) : Prop :=
  Forall (K_episode K) (g_batch g) /\
  (Z.of_nat (length (g_batch g)) < batch_size)%Z /\
  count (g_env g) = length (g_episode_steps g) /\
  (count (g_env g) < K)%nat /\
  g_episode_reward g == inject_Z (Z.of_nat (count (g_env g))).

(** The frame right after a [yield] (and at the start). *)
Definition scripted_ready (K : nat) (batch_size : Z) (count : EnvSt -> nat)
    (g : GenState Obs EnvSt Rng) : Prop :=
  scripted_inv K batch_size count g /\ g_batch g = [] /\ count (g_env g) = O.

End ScriptedShape.

(** ** Scripted collaborators *)

(** An environment that ends every episode after exactly [K] steps, with
    reward 1.0 at each step.  Its state and its observation are the number
    of steps taken since the last reset. *)
Definition scripted_env (K : nat) : Environment nat nat :=
  mkEnvironment
    (fun _ => (O, O))
    (fun n _ => Ok (S n, 1, Nat.eqb (S n) K, S n)).

(** Stand-in for [nn.Softmax] on one row.  It is exact on the rows that
    matter below: a NaN or +inf score makes every entry NaN, as IEEE
    arithmetic does in exp(x - max) / sum.  On the other rows the true
    entries are irrational; the stand-in returns the uniform distribution. *)
Definition softmax_standin (row : list score) : list score :=
  if forallb
       (fun x => is_finite x || match x with NegInf => true | _ => false end)
       row
  then map (fun _ => Finite (1 / inject_Z (Z.of_nat (length row)))) row
  else map (fun _ => NaN) row.

(** Sampling replaced by a function of the probabilities alone (the index
    of the first entry, when there is one); the generator state still
    advances at each draw. *)
Definition first_choice (rng : nat) (n : nat) (probs : list score)
    : result (Action * nat) :=
  match probs with
  | [] => Raise ValueError
  | _ :: _ => Ok (O, S rng)
  end.


(** An update procedure that only counts how often it ran and on how many
    examples; the loss it reports is 0. *)
Definition counting_update (p : list nat) (obs : list nat) (acts : list Action)
    : result (list nat * Q) :=
  Ok (p ++ [length obs], 0).

(** A scorer that is indifferent between two actions, and one whose first
    score is not a number. *)
Definition flat_net (o : nat) : list score := [Finite 0; Finite 0].


(** The action [first_choice] draws, as a function of the probabilities. *)
Definition first_pick (probs : list score) : result Action :=
  match probs with
  | [] => Raise ValueError
  | _ :: _ => Ok O
  end.

(** Three episodes with rewards 10, 20 and 30. *)
Definition three_episodes : Batch nat :=
  [mkEpisode 10 [mkStep 1%nat 0%nat];
   mkEpisode 20 [mkStep 2%nat 1%nat];
   mkEpisode 30 [mkStep 3%nat 0%nat; mkStep 4%nat 1%nat]].


(** A trainer about to pull its first batch from the scripted environment. *)
Definition fresh_trainer (K : nat) : Trainer nat nat nat (list nat) :=
  mkTrainer [] (gen_init (scripted_env K) O O) O [].

(** The first pull of that trainer on episodes of 2 steps, with the batch,
    the frame it leaves and the training set of the batch. *)
Definition first_pull : pull nat nat nat :=
  Eval vm_compute in
    next_batch softmax_standin first_choice (scripted_env 2) 32 flat_net
      BATCH_SIZE (gen_init (scripted_env 2) O O).

Definition first_batch : Batch nat :=
  Eval vm_compute in
    match first_pull with
    | Yielded batch _ => batch
    | _ => []
    end.

Definition first_frame : GenState nat nat nat :=
  Eval vm_compute in
    match first_pull with
    | Yielded _ g => g
    | _ => gen_init (scripted_env 2) O O
    end.

Definition first_training_set : TrainingSet nat :=
  Eval vm_compute in
    match filter_batch first_batch PERCENTILE with
    | Ok ts => ts
    | Raise _ => mkTrainingSet [] [] 0 0
    end.

(** ** The rollout of the notebook's last cell *)

Section LastCell.
Variables Obs EnvSt Rng : Type.
Variable Softmax : list score -> list score.
Variable random_choice : Rng -> nat -> list score -> result (Action * Rng).
Variable env : Environment Obs EnvSt.

(** One turn of [while len(batch) < batch_size]: the turn of the generator
    without its [yield]. *)
Definition collect_turn (net : Obs -> list score)
    (g : GenState Obs EnvSt Rng) : result (GenState Obs EnvSt Rng) :=
  let probs := act_probs Softmax net g in
  sampled <- random_choice (g_rng g) (length probs) probs ;;
  let (action, rng) := sampled in
  stepped <- env_step env (g_env g) action ;;
  let '(next_obs, reward, is_done, e) := stepped in
  let episode_reward := g_episode_reward g + reward in
  let episode_steps := g_episode_steps g ++ [mkStep (g_obs g) action] in
  if is_done then
    let batch := g_batch g ++ [mkEpisode episode_reward episode_steps] in
    let (next_obs', e') := env_reset env e in
    Ok (mkGenState batch 0 [] next_obs' e' rng)
  else
    Ok (mkGenState (g_batch g) episode_reward episode_steps next_obs e rng).

(** How the [while] loop of the cell ends. *)
Inductive collected : Type :=
| Collected (g : GenState Obs EnvSt Rng)   (* the loop condition failed *)
| Failed (e : exn)
| Unfinished.                              (* out of fuel *)

(** The [while] loop: the condition is tested before every turn. *)
Fixpoint collect (fuel : nat) (net : Obs -> list score) (batch_size : Z)
    (g : GenState Obs EnvSt Rng) : collected :=
  if (Z.of_nat (length (g_batch g)) <? batch_size)%Z then
    match fuel with
    | O => Unfinished
    | S fuel' =>
        match collect_turn net g with
        | Raise e => Failed e
        | Ok g' => collect fuel' net batch_size g'
        end
    end
  else Collected g.

(** The frame [g] with another batch under construction. *)
Definition with_batch (batch : Batch Obs) (g : GenState Obs EnvSt Rng)
    : GenState Obs EnvSt Rng :=
  mkGenState batch (g_episode_reward g) (g_episode_steps g) (g_obs g)
    (g_env g) (g_rng g).

(** ** Episodes as trajectories of the environment *)

(** From the environment state [e], showing observation [o], with reward
    [w] accumulated, the steps [sts] are played one after the other, the
    environment never reporting [done], and lead to [e'], [o'] and [w']. *)
Fixpoint segment (e : EnvSt) (o : Obs) (w : Q) (sts : list (EpisodeStep Obs))
    (e' : EnvSt) (o' : Obs) (w' : Q) : Prop :=
  match sts with
  | [] => e' = e /\ o' = o /\ w' = w
  | st :: rest =>
      observation st = o /\
      exists o1 r e1,
        env_step env e (action st) = Ok (o1, r, false, e1) /\
        segment e1 o1 (w + r) rest e' o' w'
  end.

(** The episode is a whole trajectory: it starts at a reset, every step
    records the observation the environment showed and the action it was
    given next, [done] is reported at the last step and at no step before,
    and the reward is the sum, in order, of the rewards of the steps. *)
Definition complete_episode (example : Episode Obs) : Prop :=
  exists e0 sts st e o w o1 r e1,
    steps example = sts ++ [st] /\
    segment (snd (env_reset env e0)) (fst (env_reset env e0)) 0 sts e o w /\
    observation st = o /\
    env_step env e (action st) = Ok (o1, r, true, e1) /\
    reward example = w + r.

(** The frame is in the middle of such a trajectory. *)
Definition in_episode (g : GenState Obs EnvSt Rng) : Prop :=
  exists e0,
    segment (snd (env_reset env e0)) (fst (env_reset env e0)) 0
      (g_episode_steps g) (g_env g) (g_obs g) (g_episode_reward g).

(** What the generator keeps between two turns: the closed episodes are
    whole trajectories, the open one is a trajectory so far. *)
Definition trajectory_frame (g : GenState Obs EnvSt Rng) : Prop :=
  Forall complete_episode (g_batch g) /\ in_episode g.

End LastCell.

Arguments Collected {Obs EnvSt Rng} _.
Arguments Failed {Obs EnvSt Rng} _.
Arguments Unfinished {Obs EnvSt Rng}.

(** ** The lines the training loop writes *)

Arguments Crashed {Obs EnvSt Rng Params} _.
Arguments Starved {Obs EnvSt Rng Params}.


(** Four episodes that all reached the same reward. *)
Definition tied_episodes : Batch nat :=
  [mkEpisode 200 [mkStep 1%nat 0%nat];
   mkEpisode 200 [mkStep 2%nat 1%nat; mkStep 3%nat 1%nat];
   mkEpisode (400 # 2) [mkStep 4%nat 0%nat];
   mkEpisode 200 [mkStep 5%nat 1%nat]].

(** The training sets of the three episodes at percentiles 30 and 70. *)
Definition three_at_30 : TrainingSet nat :=
  Eval vm_compute in
    match filter_batch three_episodes 30 with
    | Ok ts => ts
    | Raise _ => mkTrainingSet [] [] 0 0
    end.

Definition three_at_70 : TrainingSet nat :=
  Eval vm_compute in
    match filter_batch three_episodes 70 with
    | Ok ts => ts
    | Raise _ => mkTrainingSet [] [] 0 0
    end.

Definition tied_at_70 : TrainingSet nat :=
  Eval vm_compute in
    match filter_batch tied_episodes 70 with
    | Ok ts => ts
    | Raise _ => mkTrainingSet [] [] 0 0
    end.

(** * Properties *)


(** ** The elite filter: which steps are returned *)

Section EliteFilterFacts.
Variable Obs : Type.
Implicit Types (batch : Batch Obs) (example : Episode Obs).

Lemma Qltb_true (x y : Q) : Np.Qltb x y = true <-> x < y.
Proof.
  unfold Np.Qltb. rewrite negb_true_iff, <- not_true_iff_false, Qle_bool_iff.
  split; [apply Qnot_le_lt | apply Qlt_not_le].
Qed.

Lemma Qltb_false (x y : Q) : Np.Qltb x y = false <-> y <= x.
Proof.
  unfold Np.Qltb. rewrite negb_false_iff. apply Qle_bool_iff.
Qed.

Lemma elite_true bound example :
  elite bound example = true <-> bound <= reward example.
Proof. apply Qle_bool_iff. Qed.

Lemma elite_false bound example :
  elite bound example = false <-> reward example < bound.
Proof.
  unfold elite. rewrite <- not_true_iff_false, Qle_bool_iff.
  split; [apply Qnot_le_lt | apply Qlt_not_le].
Qed.

(** The loop of [filter_batch], started from any pair of lists, appends
    the contributions of the episodes in batch order. *)
Lemma filter_loop bound batch : forall acc,
  fold_left (filter_step bound) batch acc =
  (fst acc ++ map observation (flat_map (contribution bound) batch),
   snd acc ++ map action (flat_map (contribution bound) batch)).
Proof.
  induction batch as [|example batch IH]; intros [os als]; simpl.
  - now rewrite !app_nil_r.
  - rewrite IH. unfold filter_step, contribution, elite, Np.Qltb.
    destruct (Qle_bool bound (reward example)); simpl.
    + now rewrite !map_app, !app_assoc.
    + reflexivity.
Qed.

Lemma contributions_are_elite_steps bound batch :
  flat_map (contribution bound) batch =
  flat_map steps (filter (elite bound) batch).
Proof.
  induction batch as [|example batch IH]; simpl; [reflexivity|].
  unfold contribution at 1.
  destruct (elite bound example); simpl; now rewrite IH.
Qed.

Lemma filter_batch_ok batch percentile ts :
  filter_batch batch percentile = Ok ts ->
  Np.percentile (map reward batch) percentile = Ok (reward_bound ts) /\
  reward_mean ts = Np.mean (map reward batch) /\
  train_obs_v ts =
    map observation (flat_map (contribution (reward_bound ts)) batch) /\
  train_act_v ts =
    map action (flat_map (contribution (reward_bound ts)) batch).
Proof.
  unfold filter_batch.
  destruct (Np.percentile (map reward batch) percentile) as [bound|e];
    simpl; [|discriminate].
  intros [= <-]. simpl. rewrite filter_loop. simpl. auto.
Qed.

Lemma length_flat_map_filter (f : Episode Obs -> bool) batch :
  (length (flat_map steps (filter f batch))
   <= length (flat_map steps batch))%nat.
Proof.
  induction batch as [|example batch IH]; simpl; [lia|].
  destruct (f example); simpl; rewrite ?length_app; lia.
Qed.

(** C1: whenever [filter_batch] returns, the returned sequences are made,
    episode by episode in batch order, of all the steps of each episode
    whose reward is at least [reward_bound] (ties included) and of no step
    of an episode whose reward is below it. *)
Theorem filter_batch_selects_by_reward_bound :
  forall batch percentile ts,
    filter_batch batch percentile = Ok ts ->
    exists parts : list (list (EpisodeStep Obs)),
      Forall2 (fun example part =>
                 (reward_bound ts <= reward example -> part = steps example) /\
                 (reward example < reward_bound ts -> part = []))
              batch parts /\
      train_obs_v ts = map observation (concat parts) /\
      train_act_v ts = map action (concat parts).
Proof.
  intros batch percentile ts H.
  destruct (filter_batch_ok _ _ H) as (_ & _ & Ho & Ha).
  exists (map (contribution (reward_bound ts)) batch).
  rewrite Ho, Ha, !flat_map_concat_map. split; [|auto].
  clear. induction batch as [|example batch IH]; simpl; constructor; auto.
  unfold contribution. split; intros Hr.
  - apply elite_true in Hr. now rewrite Hr.
  - apply elite_false in Hr. now rewrite Hr.
Qed.

(** C2: the two returned sequences have the same length, at most the
    number of steps in the batch; they list, in batch order and then step
    order, the observations and the actions of the steps of the elite
    episodes, so each returned pair is a step of an episode of the batch
    whose reward is at least [reward_bound]. *)
Theorem filter_batch_parallel_sequences :
  forall batch percentile ts,
    filter_batch batch percentile = Ok ts ->
    let kept := flat_map steps (filter (elite (reward_bound ts)) batch) in
    length (train_obs_v ts) = length (train_act_v ts) /\
    (length (train_obs_v ts) <= total_steps batch)%nat /\
    train_obs_v ts = map observation kept /\
    train_act_v ts = map action kept /\
    (forall i o a,
        nth_error (train_obs_v ts) i = Some o ->
        nth_error (train_act_v ts) i = Some a ->
        exists example,
          In example batch /\ reward_bound ts <= reward example /\
          In (mkStep o a) (steps example)).
Proof.
  intros batch percentile ts H kept.
  destruct (filter_batch_ok _ _ H) as (_ & _ & Ho & Ha).
  rewrite contributions_are_elite_steps in Ho, Ha. fold kept in Ho, Ha.
  rewrite Ho, Ha, !length_map. repeat split; auto.
  - apply length_flat_map_filter.
  - intros i o a Hio Hia. rewrite nth_error_map in Hio, Hia.
    destruct (nth_error kept i) as [st|] eqn:Hst; [|discriminate].
    simpl in Hio, Hia. injection Hio as <-. injection Hia as <-.
    apply nth_error_In in Hst. unfold kept in Hst.
    apply in_flat_map in Hst. destruct Hst as (example & Hin & Hst).
    apply filter_In in Hin. destruct Hin as [Hin Hel].
    exists example. repeat split; auto.
    + now apply elite_true.
    + now destruct st.
Qed.

End EliteFilterFacts.

(** ** Order statistics and the interpolated percentile *)

Module NpFacts.
Import Np.

Lemma insert_In x a l : In x (insert a l) <-> x = a \/ In x l.
Proof.
  induction l as [|y l IH]; simpl.
  - intuition.
  - destruct (Qle_bool a y); simpl; [intuition|]. rewrite IH. intuition.
Qed.

Lemma sort_In x l : In x (sort l) <-> In x l.
Proof.
  induction l as [|y l IH]; simpl; [tauto|].
  rewrite insert_In, IH. intuition.
Qed.

Lemma insert_length a l : length (insert a l) = S (length l).
Proof.
  induction l as [|y l IH]; simpl; [reflexivity|].
  destruct (Qle_bool a y); simpl; congruence.
Qed.

Lemma sort_length l : length (sort l) = length l.
Proof.
  induction l as [|y l IH]; simpl; [reflexivity|].
  now rewrite insert_length, IH.
Qed.

Lemma insert_ascending a l : ascending l -> ascending (insert a l).
Proof.
  induction l as [|y l IH]; simpl.
  - intros _. split; [intros ? []|exact I].
  - intros [Hy Hl]. destruct (Qle_bool a y) eqn:E; simpl.
    + apply Qle_bool_iff in E. split; [|split; assumption].
      intros z [<-|Hz]; [assumption|].
      apply Qle_trans with y; auto.
    + assert (y <= a) as Hya.
      { apply Qlt_le_weak, Qnot_le_lt. intros Hc.
        apply Qle_bool_iff in Hc. congruence. }
      split; [|auto].
      intros z Hz. apply insert_In in Hz. destruct Hz as [->|Hz]; auto.
Qed.

Lemma sort_ascending l : ascending (sort l).
Proof.
  induction l as [|y l IH]; simpl; [exact I|]. now apply insert_ascending.
Qed.

Lemma ascending_nth l : ascending l ->
  forall i j, (i <= j < length l)%nat -> nth i l 0 <= nth j l 0.
Proof.
  induction l as [|x l IH]; simpl; intros Hs i j Hij; [lia|].
  destruct Hs as [Hx Hl].
  destruct i as [|i], j as [|j]; try lia.
  - apply Qle_refl.
  - apply Hx, nth_In. lia.
  - apply IH; [assumption|lia].
Qed.

(** [maximum] and [minimum] are attained and bound the list. *)
Lemma fold_max_spec l : forall x,
  let m := fold_left (fun m y => if Qltb m y then y else m) l x in
  In m (x :: l) /\ forall y, In y (x :: l) -> y <= m.
Proof.
  induction l as [|z l IH]; intros x; simpl.
  - split; [now left|]. intros y [<-|[]]. apply Qle_refl.
  - destruct (IH (if Qltb x z then z else x)) as [Hin Hub].
    simpl in Hin, Hub.
    destruct (Qltb x z) eqn:E.
    + split; [tauto|]. intros y [<-|Hy]; [|now apply Hub].
      unfold Qltb in E. apply negb_true_iff in E.
      apply Qle_trans with z; [|apply Hub; now left].
      apply Qlt_le_weak, Qnot_le_lt. intros Hc.
      apply Qle_bool_iff in Hc. congruence.
    + split; [tauto|]. intros y [<-|[<-|Hy]]; try (apply Hub; tauto).
      unfold Qltb in E. apply negb_false_iff, Qle_bool_iff in E.
      apply Qle_trans with x; [assumption|apply Hub; now left].
Qed.

Lemma fold_min_spec l : forall x,
  let m := fold_left (fun m y => if Qltb y m then y else m) l x in
  In m (x :: l) /\ forall y, In y (x :: l) -> m <= y.
Proof.
  induction l as [|z l IH]; intros x; simpl.
  - split; [now left|]. intros y [<-|[]]. apply Qle_refl.
  - destruct (IH (if Qltb z x then z else x)) as [Hin Hlb].
    simpl in Hin, Hlb.
    destruct (Qltb z x) eqn:E.
    + split; [tauto|]. intros y [<-|Hy]; [|now apply Hlb].
      unfold Qltb in E. apply negb_true_iff in E.
      apply Qle_trans with z; [apply Hlb; now left|].
      apply Qlt_le_weak, Qnot_le_lt. intros Hc.
      apply Qle_bool_iff in Hc. congruence.
    + split; [tauto|]. intros y [<-|[<-|Hy]]; try (apply Hlb; tauto).
      unfold Qltb in E. apply negb_false_iff, Qle_bool_iff in E.
      apply Qle_trans with x; [apply Hlb; now left|assumption].
Qed.

Lemma maximum_spec l : l <> [] ->
  In (maximum l) l /\ forall y, In y l -> y <= maximum l.
Proof.
  destruct l as [|x l]; [congruence|]. intros _. apply (fold_max_spec l x).
Qed.

Lemma minimum_spec l : l <> [] ->
  In (minimum l) l /\ forall y, In y l -> minimum l <= y.
Proof.
  destruct l as [|x l]; [congruence|]. intros _. apply (fold_min_spec l x).
Qed.

(** The first and the last order statistic. *)
Lemma sort_first l : l <> [] -> nth 0 (sort l) 0 == minimum l.
Proof.
  intros Hl. destruct (minimum_spec Hl) as [Hin Hlb].
  assert (0 < length (sort l))%nat as Hlen
    by (rewrite sort_length; destruct l; simpl; [congruence|lia]).
  apply Qle_antisym.
  - apply sort_In in Hin. apply (In_nth _ _ 0) in Hin.
    destruct Hin as (i & Hi & <-).
    apply ascending_nth; [apply sort_ascending|lia].
  - apply Hlb, sort_In, nth_In. assumption.
Qed.

Lemma sort_last l : l <> [] -> nth (length l - 1) (sort l) 0 == maximum l.
Proof.
  intros Hl. destruct (maximum_spec Hl) as [Hin Hub].
  assert (0 < length (sort l))%nat as Hlen
    by (rewrite sort_length; destruct l; simpl; [congruence|lia]).
  apply Qle_antisym.
  - apply Hub, sort_In, nth_In. rewrite sort_length in *. lia.
  - apply sort_In in Hin. apply (In_nth _ _ 0) in Hin.
    destruct Hin as (i & Hi & <-).
    apply ascending_nth; [apply sort_ascending|].
    rewrite sort_length in *. lia.
Qed.

End NpFacts.

Module PercentileFacts.
Import Np NpFacts.

Lemma percentile_unfold l q :
  l <> [] -> 0 <= q -> q <= 100 ->
  percentile l q =
  Ok (let v := virtual_index (length l) q in
      let previous := Z.to_nat (Qfloor v) in
      let next := Nat.min (previous + 1) (length l - 1) in
      let lo := nth previous (sort l) 0 in
      let hi := nth next (sort l) 0 in
      lo + (hi - lo) * (v - inject_Z (Qfloor v))).
Proof.
  intros Hl H0 H100. unfold percentile.
  apply Qle_bool_iff in H0, H100. rewrite H0, H100. simpl.
  destruct l; [congruence|reflexivity].
Qed.

Lemma virtual_index_range n q :
  0 <= q -> q <= 100 ->
  0 <= virtual_index n q /\ virtual_index n q <= inject_Z (Z.of_nat (n - 1)).
Proof.
  intros H0 H100. unfold virtual_index.
  assert (0 <= inject_Z (Z.of_nat (n - 1))) as Hn.
  { change 0 with (inject_Z 0). rewrite <- Zle_Qle. lia. }
  assert (0 <= q / 100) as Hq0.
  { apply Qle_shift_div_l; [reflexivity|]. now rewrite Qmult_0_l. }
  assert (q / 100 <= 1) as Hq1.
  { apply Qle_shift_div_r; [reflexivity|]. now rewrite Qmult_1_l. }
  split.
  - now apply Qmult_le_0_compat.
  - rewrite <- (Qmult_1_l (inject_Z (Z.of_nat (n - 1)))) at 2.
    now apply Qmult_le_compat_r.
Qed.

Lemma floor_index_range n q :
  0 <= q -> q <= 100 ->
  (Z.to_nat (Qfloor (virtual_index n q)) <= n - 1)%nat /\
  0 <= virtual_index n q - inject_Z (Qfloor (virtual_index n q)) /\
  virtual_index n q - inject_Z (Qfloor (virtual_index n q)) <= 1.
Proof.
  intros H0 H100. destruct (virtual_index_range n H0 H100) as [Hv0 Hvn].
  set (v := virtual_index n q) in *.
  assert (0 <= Qfloor v)%Z as Hf0.
  { change 0%Z with (Qfloor 0). now apply Qfloor_resp_le. }
  assert (Qfloor v <= Z.of_nat (n - 1))%Z as Hfn.
  { rewrite <- (Qfloor_Z (Z.of_nat (n - 1))). now apply Qfloor_resp_le. }
  split; [lia|].
  pose proof (Qfloor_le v) as Hle. pose proof (Qlt_floor v) as Hlt.
  rewrite inject_Z_plus in Hlt. change (inject_Z 1) with 1 in Hlt.
  split; lra.
Qed.

(** A value interpolated between two values of [lo, hi] stays there. *)
Lemma interpolation_bounds (m M x y g : Q) :
  m <= x -> x <= M -> m <= y -> y <= M -> 0 <= g -> g <= 1 ->
  m <= x + (y - x) * g /\ x + (y - x) * g <= M.
Proof.
  intros Hmx HxM Hmy HyM Hg0 Hg1.
  assert (0 <= 1 - g) as Hg' by
    (apply (Qplus_le_l _ _ g); ring_simplify; exact Hg1).
  split.
  - assert (0 <= (1 - g) * (x - m) + g * (y - m)) as H.
    { apply (Qplus_le_compat 0 _ 0); apply Qmult_le_0_compat; auto.
      - apply (Qplus_le_l _ _ m); ring_simplify; exact Hmx.
      - apply (Qplus_le_l _ _ m); ring_simplify; exact Hmy. }
    apply (Qplus_le_l _ _ (- m)).
    setoid_replace (m + - m) with 0 by ring.
    setoid_replace (x + (y - x) * g + - m)
      with ((1 - g) * (x - m) + g * (y - m)) by ring.
    exact H.
  - assert (0 <= (1 - g) * (M - x) + g * (M - y)) as H.
    { apply (Qplus_le_compat 0 _ 0); apply Qmult_le_0_compat; auto.
      - apply (Qplus_le_l _ _ x); ring_simplify; exact HxM.
      - apply (Qplus_le_l _ _ y); ring_simplify; exact HyM. }
    apply (Qplus_le_l _ _ (- (x + (y - x) * g))).
    setoid_replace (x + (y - x) * g + - (x + (y - x) * g)) with 0 by ring.
    setoid_replace (M + - (x + (y - x) * g))
      with ((1 - g) * (M - x) + g * (M - y)) by ring.
    exact H.
Qed.

(** For a non-empty array and a percentile in [0, 100] the call returns,
    and the value lies between the least and the greatest element. *)
Lemma percentile_between l q :
  l <> [] -> 0 <= q -> q <= 100 ->
  exists r, percentile l q = Ok r /\ minimum l <= r /\ r <= maximum l.
Proof.
  intros Hl H0 H100. rewrite (percentile_unfold Hl H0 H100).
  eexists. split; [reflexivity|]. cbv zeta.
  destruct (floor_index_range (length l) H0 H100) as (Hp & Hg0 & Hg1).
  destruct (minimum_spec Hl) as [_ Hlb].
  destruct (maximum_spec Hl) as [_ Hub].
  assert (0 < length l)%nat as Hlen by (destruct l; simpl; [congruence|lia]).
  apply interpolation_bounds; auto.
  - apply Hlb, sort_In, nth_In. rewrite sort_length. lia.
  - apply Hub, sort_In, nth_In. rewrite sort_length. lia.
  - apply Hlb, sort_In, nth_In. rewrite sort_length. lia.
  - apply Hub, sort_In, nth_In. rewrite sort_length. lia.
Qed.

Lemma percentile_100 l :
  l <> [] -> exists r, percentile l 100 = Ok r /\ r == maximum l.
Proof.
  intros Hl.
  rewrite (percentile_unfold Hl) by (intro; discriminate).
  eexists. split; [reflexivity|]. cbv zeta.
  assert (virtual_index (length l) 100 == inject_Z (Z.of_nat (length l - 1)))
    as Hv by (unfold virtual_index; field).
  rewrite (Qfloor_comp _ _ Hv), Qfloor_Z, Nat2Z.id, Hv.
  rewrite <- (sort_last Hl). ring.
Qed.

Lemma percentile_0 l :
  l <> [] -> exists r, percentile l 0 = Ok r /\ r == minimum l.
Proof.
  intros Hl.
  rewrite (percentile_unfold Hl) by (intro; discriminate).
  eexists. split; [reflexivity|]. cbv zeta.
  assert (virtual_index (length l) 0 == 0) as Hv
    by (unfold virtual_index; field).
  rewrite (Qfloor_comp _ _ Hv), Hv. change (Qfloor 0) with 0%Z. simpl Z.to_nat.
  rewrite <- (sort_first Hl). change (inject_Z 0) with 0. ring.
Qed.

End PercentileFacts.

(** ** The bound and the mean computed by [filter_batch] *)

Section RewardBound.
Variable Obs : Type.
Implicit Types (batch : Batch Obs).

Lemma rewards_nonempty batch : batch <> [] -> map reward batch <> [].
Proof. destruct batch; simpl; congruence. Qed.

Lemma filter_batch_of_percentile batch q bound :
  Np.percentile (map reward batch) q = Ok bound ->
  exists ts, filter_batch batch q = Ok ts /\ reward_bound ts = bound /\
             reward_mean ts = Np.mean (map reward batch).
Proof.
  intros H. unfold filter_batch. rewrite H. simpl.
  eexists. split; [reflexivity|]. simpl. auto.
Qed.

(** [filter_batch] returns on every non-empty batch and every percentile
    of [0, 100]. *)
Lemma filter_batch_returns batch q :
  batch <> [] -> 0 <= q -> q <= 100 ->
  exists ts, filter_batch batch q = Ok ts /\
             Np.minimum (map reward batch) <= reward_bound ts /\
             reward_bound ts <= Np.maximum (map reward batch).
Proof.
  intros Hb H0 H100.
  destruct (PercentileFacts.percentile_between (rewards_nonempty Hb) H0 H100)
    as (r & Hr & Hmin & Hmax).
  destruct (filter_batch_of_percentile _ _ Hr) as (ts & Hts & <- & _).
  exists ts. auto.
Qed.

(** C3: on a non-empty batch, [filter_batch] at percentile 100 returns the
    greatest episode reward as [reward_bound], and at percentile 0 the
    least one. *)
Theorem reward_bound_at_100_and_0 :
  forall batch,
    batch <> [] ->
    (exists ts, filter_batch batch 100 = Ok ts /\
                reward_bound ts == Np.maximum (map reward batch)) /\
    (exists ts, filter_batch batch 0 = Ok ts /\
                reward_bound ts == Np.minimum (map reward batch)).
Proof.
  intros batch Hb. split.
  - destruct (PercentileFacts.percentile_100 (rewards_nonempty Hb))
      as (r & Hr & Hmax).
    destruct (filter_batch_of_percentile _ _ Hr) as (ts & Hts & <- & _).
    exists ts. auto.
  - destruct (PercentileFacts.percentile_0 (rewards_nonempty Hb))
      as (r & Hr & Hmin).
    destruct (filter_batch_of_percentile _ _ Hr) as (ts & Hts & <- & _).
    exists ts. auto.
Qed.


End RewardBound.


(** ** The episode generator: one turn of its loop *)

Section GeneratorFacts.
Variables Obs EnvSt Rng : Type.
Variable Softmax : list score -> list score.
Variable random_choice : Rng -> nat -> list score -> result (Action * Rng).
Variable env : Environment Obs EnvSt.

Implicit Types (g : GenState Obs EnvSt Rng) (net : Obs -> list score).

(** A turn that returns has sampled an action from the probabilities,
    stepped the environment with it, and then either went on with the
    episode, or closed it and, with a full batch, yielded. *)
Lemma loop_body_ok net batch_size g out g' :
  loop_body Softmax random_choice env net batch_size g = Ok (out, g') ->
  exists a rng o r d e,
    random_choice (g_rng g) (length (act_probs Softmax net g))
      (act_probs Softmax net g) = Ok (a, rng) /\
    env_step env (g_env g) a = Ok (o, r, d, e) /\
    g_rng g' = rng /\
    ((d = false /\ out = None /\
      g' = mkGenState (g_batch g) (g_episode_reward g + r)
             (g_episode_steps g ++ [mkStep (g_obs g) a]) o e rng) \/
     (d = true /\
      g_episode_reward g' = 0 /\ g_episode_steps g' = [] /\
      (g_obs g', g_env g') = env_reset env e /\
      let batch := g_batch g ++ [closed_episode g a r] in
      ((Z.of_nat (length batch) = batch_size /\
        out = Some batch /\ g_batch g' = []) \/
       (Z.of_nat (length batch) <> batch_size /\
        out = None /\ g_batch g' = batch)))).
Proof.
  unfold loop_body.
  destruct (random_choice _ _ _) as [[a rng]|] eqn:Hc; simpl; [|discriminate].
  destruct (env_step env (g_env g) a) as [[[[o r] d] e]|] eqn:Hs; simpl;
    [|discriminate].
  intros H. exists a, rng, o, r, d, e. split; [reflexivity|].
  split; [exact Hs|].
  destruct d.
  - destruct (env_reset env e) as [o' e'] eqn:Hreset.
    unfold closed_episode.
    destruct (Z.eqb_spec
      (Z.of_nat (length (g_batch g ++
         [mkEpisode (g_episode_reward g + r)
            (g_episode_steps g ++ [mkStep (g_obs g) a])]))) batch_size)
      as [Heq|Hne]; injection H as <- <-; simpl;
      (split; [reflexivity|]); right; repeat split; auto.
  - injection H as <- <-. simpl. split; [reflexivity|]. left. auto.
Qed.



(** *** Sampling replaced by a function of the probabilities *)

Section DeterministicSampling.
Variable pick : list score -> result Action.
Hypothesis choice_is_pick :
  forall rng n probs, drawn (random_choice rng n probs) = pick probs.

Lemma loop_body_same_frame net batch_size g1 g2 :
  same_frame g1 g2 ->
  match loop_body Softmax random_choice env net batch_size g1,
        loop_body Softmax random_choice env net batch_size g2 with
  | Ok (out1, g1'), Ok (out2, g2') => out1 = out2 /\ same_frame g1' g2'
  | Raise x1, Raise x2 => x1 = x2
  | _, _ => False
  end.
Proof.
  destruct g1 as [b1 w1 s1 o1 e1 r1], g2 as [b2 w2 s2 o2 e2 r2].
  unfold same_frame; simpl. intros (-> & -> & -> & -> & ->).
  unfold loop_body, act_probs; simpl.
  pose proof (choice_is_pick r1 (length (Softmax (net o2))) (Softmax (net o2)))
    as H1.
  pose proof (choice_is_pick r2 (length (Softmax (net o2))) (Softmax (net o2)))
    as H2.
  destruct (random_choice r1 _ _) as [[a1 r1']|x1];
    destruct (random_choice r2 _ _) as [[a2 r2']|x2];
    simpl in *; try congruence.
  assert (a1 = a2) as -> by congruence.
  destruct (env_step env e2 a2) as [[[[o r] d] e]|x]; simpl; [|reflexivity].
  destruct d; [|unfold same_frame; simpl; repeat split; reflexivity].
  destruct (env_reset env e) as [o' e'].
  destruct (_ =? _)%Z; unfold same_frame; simpl; repeat split; reflexivity.
Qed.

Lemma next_batch_same_frame net batch_size fuel : forall g1 g2,
  same_frame g1 g2 ->
  match next_batch Softmax random_choice env fuel net batch_size g1,
        next_batch Softmax random_choice env fuel net batch_size g2 with
  | Yielded b1 g1', Yielded b2 g2' => b1 = b2 /\ same_frame g1' g2'
  | Raised x1, Raised x2 => x1 = x2
  | OutOfFuel, OutOfFuel => True
  | _, _ => False
  end.
Proof.
  induction fuel as [|fuel IH]; intros g1 g2 Hsame; simpl; [exact I|].
  pose proof (loop_body_same_frame net batch_size Hsame) as H.
  destruct (loop_body _ _ _ net batch_size g1) as [[[b1|] g1']|x1];
    destruct (loop_body _ _ _ net batch_size g2) as [[[b2|] g2']|x2];
    try contradiction; try (destruct H; discriminate); auto.
  - destruct H as [[= ->] H]. auto.
  - destruct H as [_ H]. now apply IH.
Qed.

(** C9: when the sampled action depends on the probabilities only, two runs
    of the generator on the same environment from the same environment
    state, pulled with the same scorers, emit the same batches in the same
    order, whatever the states of the random generator. *)
Theorem iterate_batches_deterministic :
  forall fuel nets batch_size e rng1 rng2,
    emitted Softmax random_choice env fuel nets batch_size
      (gen_init env e rng1) =
    emitted Softmax random_choice env fuel nets batch_size
      (gen_init env e rng2).
Proof.
  intros fuel nets batch_size e rng1 rng2.
  assert (same_frame (gen_init env e rng1) (gen_init env e rng2)) as Hsame.
  { unfold gen_init. destruct (env_reset env e).
    unfold same_frame; simpl; repeat split; reflexivity. }
  revert Hsame. generalize (gen_init env e rng1) (gen_init env e rng2).
  induction nets as [|net nets IH]; intros g1 g2 Hsame; simpl; [reflexivity|].
  pose proof (next_batch_same_frame net batch_size fuel Hsame) as H.
  destruct (next_batch _ _ _ fuel net batch_size g1) as [b1 g1'|x1|];
    destruct (next_batch _ _ _ fuel net batch_size g2) as [b2 g2'|x2|];
    try contradiction; try reflexivity.
  destruct H as [-> H]. f_equal. now apply IH.
Qed.

End DeterministicSampling.

End GeneratorFacts.

(** ** Batches of the generator always train on something *)

Section GeneratedBatches.
Variables Obs EnvSt Rng : Type.
Variable Softmax : list score -> list score.
Variable random_choice : Rng -> nat -> list score -> result (Action * Rng).
Variable env : Environment Obs EnvSt.

Implicit Types (g : GenState Obs EnvSt Rng) (net : Obs -> list score)
  (batch : Batch Obs).

(** On a non-empty batch of non-empty episodes an episode of greatest
    reward is elite, and its steps reach both training sequences. *)
Lemma filter_batch_keeps_best batch q :
  batch <> [] -> nonempty_episodes batch -> 0 <= q -> q <= 100 ->
  exists ts,
    filter_batch batch q = Ok ts /\
    Np.minimum (map reward batch) <= reward_bound ts /\
    reward_bound ts <= Np.maximum (map reward batch) /\
    (exists best, In best batch /\
                  reward best = Np.maximum (map reward batch) /\
                  elite (reward_bound ts) best = true) /\
    train_obs_v ts <> [] /\ train_act_v ts <> [].
Proof.
  intros Hb Hne H0 H100.
  destruct (filter_batch_returns Hb H0 H100) as (ts & Hts & Hmin & Hmax).
  exists ts. split; [assumption|]. split; [assumption|]. split; [assumption|].
  destruct (NpFacts.maximum_spec (rewards_nonempty Hb)) as [Hin _].
  apply in_map_iff in Hin. destruct Hin as (best & Hbest & Hin).
  assert (elite (reward_bound ts) best = true) as Hel
    by (apply elite_true; now rewrite Hbest).
  split; [exists best; auto|].
  destruct (filter_batch_ok _ _ Hts) as (_ & _ & Ho & Ha).
  unfold nonempty_episodes in Hne. rewrite Forall_forall in Hne.
  destruct (steps best) as [|st sts] eqn:Hst; [now apply Hne in Hin|].
  assert (In st (flat_map (contribution (reward_bound ts)) batch)) as Hst'.
  { apply in_flat_map. exists best. split; [assumption|].
    unfold contribution. rewrite Hel, Hst. now left. }
  rewrite Ho, Ha.
  destruct (flat_map (contribution (reward_bound ts)) batch);
    [contradiction|]. simpl. split; discriminate.
Qed.

Lemma loop_body_nonempty net batch_size g out g' :
  nonempty_episodes (g_batch g) ->
  loop_body Softmax random_choice env net batch_size g = Ok (out, g') ->
  nonempty_episodes (g_batch g') /\
  forall batch, out = Some batch -> batch <> [] /\ nonempty_episodes batch.
Proof.
  intros Hinv H.
  apply loop_body_ok in H. destruct H
    as (a & rng & o & r & d & e & _ & _ & _ &
        [(_ & -> & ->)|(_ & _ & _ & _ & Hy)]).
  - simpl. split; [assumption|discriminate].
  - assert (nonempty_episodes (g_batch g ++ [closed_episode g a r])) as Hall.
    { apply Forall_app. split; [assumption|]. constructor; [|constructor].
      simpl. now destruct (g_episode_steps g). }
    cbv zeta in Hy. destruct Hy as [(_ & -> & ->)|(_ & -> & ->)].
    + split; [constructor|]. intros batch [= <-]. split; [|assumption].
      now destruct (g_batch g).
    + split; [assumption|discriminate].
Qed.

Lemma next_batch_nonempty net batch_size fuel : forall g batch g',
  nonempty_episodes (g_batch g) ->
  next_batch Softmax random_choice env fuel net batch_size g
    = Yielded batch g' ->
  batch <> [] /\ nonempty_episodes batch /\ nonempty_episodes (g_batch g').
Proof.
  induction fuel as [|fuel IH]; intros g batch g' Hinv; simpl; [discriminate|].
  destruct (loop_body _ _ _ net batch_size g) as [[out g1]|x] eqn:Hl;
    [|discriminate].
  destruct (loop_body_nonempty _ _ _ Hinv Hl) as [Hinv1 Hout].
  destruct out as [b|].
  - intros [= <- <-]. destruct (Hout b eq_refl). auto.
  - now apply IH.
Qed.

Lemma emitted_nonempty batch_size fuel nets : forall g,
  nonempty_episodes (g_batch g) ->
  Forall (fun batch => batch <> [] /\ nonempty_episodes batch)
         (emitted Softmax random_choice env fuel nets batch_size g).
Proof.
  induction nets as [|net nets IH]; intros g Hinv; simpl; [constructor|].
  destruct (next_batch _ _ _ fuel net batch_size g) as [b g'| |] eqn:Hn;
    try constructor.
  - destruct (next_batch_nonempty _ _ _ _ Hinv Hn) as (? & ? & ?). auto.
  - destruct (next_batch_nonempty _ _ _ _ Hinv Hn) as (? & ? & ?). auto.
Qed.

(** C10: every episode the generator puts in a batch has a step; on a
    non-empty batch and a percentile of [0, 100] the bound lies between the
    least and the greatest reward; so on every batch the generator emits, an
    episode of greatest reward is elite and [filter_batch] returns non-empty
    observation and action sequences. *)
Theorem generated_batches_have_elite_steps :
  (forall batch q,
      batch <> [] -> 0 <= q -> q <= 100 ->
      exists ts, filter_batch batch q = Ok ts /\
                 Np.minimum (map reward batch) <= reward_bound ts /\
                 reward_bound ts <= Np.maximum (map reward batch)) /\
  (forall fuel nets batch_size e rng,
      Forall (fun batch =>
                batch <> [] /\
                Forall (fun example => steps example <> []) batch /\
                forall q, 0 <= q -> q <= 100 ->
                  exists ts,
                    filter_batch batch q = Ok ts /\
                    (exists best,
                        In best batch /\
                        reward best = Np.maximum (map reward batch) /\
                        elite (reward_bound ts) best = true) /\
                    train_obs_v ts <> [] /\ train_act_v ts <> [])
             (emitted Softmax random_choice env fuel nets batch_size
                (gen_init env e rng))).
Proof.
  split; [intros batch q; apply filter_batch_returns|].
  intros fuel nets batch_size e rng.
  assert (nonempty_episodes (g_batch (gen_init env e rng))) as Hinit.
  { unfold gen_init. destruct (env_reset env e). constructor. }
  pose proof (emitted_nonempty batch_size fuel nets _ Hinit) as H.
  eapply Forall_impl; [|exact H]. simpl.
  intros batch [Hb Hne]. split; [assumption|]. split; [exact Hne|].
  intros q H0 H100.
  destruct (filter_batch_keeps_best Hb Hne H0 H100)
    as (ts & Hts & _ & _ & Hbest & Ho & Ha).
  exists ts. auto.
Qed.

End GeneratedBatches.

(** ** The generator on an environment of scripted episode length *)

Section ScriptedEnvironment.
Variables Obs EnvSt Rng : Type.
Variable Softmax : list score -> list score.
Variable random_choice : Rng -> nat -> list score -> result (Action * Rng).
Variable env : Environment Obs EnvSt.

Variable K : nat.
Variable batch_size : Z.

(** Steps taken in the current episode, read off the environment state. *)
Variable count : EnvSt -> nat.

Hypothesis K_positive : (1 <= K)%nat.
Hypothesis reset_restarts : forall e, count (snd (env_reset env e)) = O.
Hypothesis step_scripted :
  forall e a, (count e < K)%nat ->
    exists o e',
      env_step env e a = Ok (o, 1, Nat.eqb (S (count e)) K, e') /\
      count e' = S (count e).

Implicit Types (g : GenState Obs EnvSt Rng) (net : Obs -> list score).

Lemma succ_reward (w : Q) (c : nat) :
  w == inject_Z (Z.of_nat c) -> w + 1 == inject_Z (Z.of_nat (S c)).
Proof.
  intros ->. rewrite Nat2Z.inj_succ. unfold Z.succ.
  rewrite inject_Z_plus. reflexivity.
Qed.

Lemma gen_init_frame (e : EnvSt) (rng : Rng) :
  scripted_frame K count (gen_init env e rng).
Proof.
  unfold gen_init. pose proof (reset_restarts e) as Hr.
  destruct (env_reset env e) as [o e']. simpl in Hr.
  unfold scripted_frame; simpl. rewrite Hr.
  repeat split; try constructor; try lia.
Qed.

(** Whatever the scorer, the sampler and [batch_size]: a turn that returns
    keeps the frame, and what it yields is a full batch of [K]-step
    episodes. *)
Lemma loop_body_scripted_frame net g out g' :
  scripted_frame K count g ->
  loop_body Softmax random_choice env net batch_size g = Ok (out, g') ->
  scripted_frame K count g' /\
  forall batch, out = Some batch -> K_batch K batch_size batch.
Proof.
  intros (Hbatch & Hcount & HcK & Hrew) H.
  apply loop_body_ok in H.
  destruct H as (a & rng & o & r & d & e & _ & Hs & _ & Hcases).
  destruct (step_scripted a HcK) as (o0 & e0 & Hs0 & He0).
  rewrite Hs0 in Hs.
  assert (r = 1 /\ d = Nat.eqb (S (count (g_env g))) K /\ e = e0)
    as (-> & Hd' & ->) by (repeat split; congruence).
  clear Hs. destruct Hcases as [(Hd & -> & ->)|(Hd & Hw & Hst & Hreset & Hy)].
  - rewrite Hd' in Hd. apply Nat.eqb_neq in Hd. split; [|discriminate].
    unfold scripted_frame; simpl. rewrite He0, length_app. simpl.
    repeat split; try assumption; try lia. now apply succ_reward.
  - rewrite Hd' in Hd. apply Nat.eqb_eq in Hd.
    pose proof (reset_restarts e0) as Hr. rewrite <- Hreset in Hr. simpl in Hr.
    assert (Forall (K_episode K) (g_batch g ++ [closed_episode g a 1]))
      as Hall.
    { apply Forall_app. split; [assumption|]. constructor; [|constructor].
      split; simpl.
      - rewrite <- Hd. now apply succ_reward.
      - rewrite length_app. simpl. lia. }
    cbv zeta in Hy. unfold scripted_frame. rewrite Hw, Hst, Hr. simpl.
    destruct Hy as [(Hfull & -> & ->)|(_ & -> & ->)].
    + split; [repeat split; try constructor; try lia|].
      intros batch [= <-]. split; assumption.
    + split; [|discriminate].
      repeat split; try assumption; try lia; try reflexivity.
Qed.

Lemma next_batch_scripted_frame net fuel : forall g batch g',
  scripted_frame K count g ->
  next_batch Softmax random_choice env fuel net batch_size g
    = Yielded batch g' ->
  K_batch K batch_size batch /\ scripted_frame K count g'.
Proof.
  induction fuel as [|fuel IH]; intros g batch g' Hinv; simpl; [discriminate|].
  destruct (loop_body _ _ _ net batch_size g) as [[out g1]|x] eqn:Hl;
    [|discriminate].
  destruct (loop_body_scripted_frame _ Hinv Hl) as [Hinv1 Hout].
  destruct out as [b|].
  - intros [= <- <-]. auto.
  - now apply IH.
Qed.

Lemma emitted_scripted_frame fuel nets : forall g,
  scripted_frame K count g ->
  Forall (K_batch K batch_size)
         (emitted Softmax random_choice env fuel nets batch_size g).
Proof.
  induction nets as [|net nets IH]; intros g Hinv; simpl; [constructor|].
  destruct (next_batch _ _ _ fuel net batch_size g) as [b g'| |] eqn:Hn;
    try constructor.
  - now destruct (next_batch_scripted_frame _ _ Hinv Hn).
  - apply IH. now destruct (next_batch_scripted_frame _ _ Hinv Hn).
Qed.

(** *** With a positive [batch_size] every pull emits *)

Section PositiveBatchSize.
Hypothesis batch_size_positive : (1 <= batch_size)%Z.

Lemma gen_init_ready (e : EnvSt) (rng : Rng) :
  scripted_ready K batch_size count (gen_init env e rng).
Proof.
  unfold gen_init. pose proof (reset_restarts e) as Hr.
  destruct (env_reset env e) as [o e']. simpl in Hr.
  unfold scripted_ready, scripted_inv; simpl. rewrite Hr.
  repeat split; try constructor; try lia.
Qed.

Lemma loop_body_scripted net g :
  scripted_inv K batch_size count g ->
  sampler_accepts Softmax random_choice net ->
  exists out g',
    loop_body Softmax random_choice env net batch_size g = Ok (out, g') /\
    ((out = None /\ scripted_inv K batch_size count g' /\
      S (turns_left K batch_size (count (g_env g')) g')
        = turns_left K batch_size (count (g_env g)) g) \/
     (exists batch, out = Some batch /\ K_batch K batch_size batch /\
        scripted_ready K batch_size count g' /\
        turns_left K batch_size (count (g_env g)) g = 1%nat)).
Proof.
  intros (Hbatch & Hlen & Hcount & HcK & Hrew) Hacc.
  destruct (Hacc (g_rng g) (g_obs g)) as (a & rng & Hc).
  destruct (step_scripted a HcK) as (o & e & Hs & He).
  unfold loop_body, act_probs. rewrite Hc.
  cbv beta iota zeta delta [bind]. rewrite Hs.
  cbv beta iota zeta delta [bind]. unfold turns_left.
  destruct (Nat.eqb_spec (S (count (g_env g))) K) as [HK|HK].
  - pose proof (reset_restarts e) as Hr.
    destruct (env_reset env e) as [o' e']. simpl in Hr.
    assert (K_episode K (mkEpisode (g_episode_reward g + 1)
              (g_episode_steps g ++ [mkStep (g_obs g) a]))) as Hep.
    { split; simpl.
      - rewrite <- HK. now apply succ_reward.
      - rewrite length_app. simpl. lia. }
    assert (Forall (K_episode K)
              (g_batch g ++ [mkEpisode (g_episode_reward g + 1)
                 (g_episode_steps g ++ [mkStep (g_obs g) a])])) as Hall.
    { apply Forall_app. split; [assumption|]. now constructor. }
    match goal with
    | |- context [Z.eqb ?x ?y] => destruct (Z.eqb_spec x y) as [Hfull|Hnot]
    end; eexists; eexists; (split; [reflexivity|]).
    + right. eexists. split; [reflexivity|]. split; [split; assumption|].
      rewrite length_app in Hfull. simpl in Hfull.
      split.
      * unfold scripted_ready, scripted_inv; simpl. rewrite Hr.
        repeat split; try constructor; try lia.
      * replace (Z.to_nat batch_size - length (g_batch g))%nat with 1%nat
          by lia. lia.
    + left. split; [reflexivity|]. simpl.
      rewrite length_app in Hnot |- *. simpl in Hnot |- *.
      split.
      * unfold scripted_inv; simpl. rewrite Hr, length_app. simpl.
        repeat split; try assumption; try lia; try reflexivity.
      * rewrite Hr.
        replace (Z.to_nat batch_size - length (g_batch g))%nat
          with (S (Z.to_nat batch_size - (length (g_batch g) + 1)))%nat by lia.
        rewrite Nat.mul_succ_r. lia.
  - eexists; eexists. split; [reflexivity|]. left. split; [reflexivity|].
    simpl. split.
    + unfold scripted_inv; simpl. rewrite He, length_app. simpl.
      repeat split; try assumption; try lia. now apply succ_reward.
    + rewrite He.
      assert (1 <= Z.to_nat batch_size - length (g_batch g))%nat as Hd by lia.
      destruct (Z.to_nat batch_size - length (g_batch g))%nat as [|d]; [lia|].
      rewrite Nat.mul_succ_r. lia.
Qed.

Lemma next_batch_scripted net fuel : forall g,
  scripted_inv K batch_size count g ->
  sampler_accepts Softmax random_choice net ->
  match next_batch Softmax random_choice env fuel net batch_size g with
  | Yielded batch g' =>
      K_batch K batch_size batch /\ scripted_ready K batch_size count g'
  | Raised _ => False
  | OutOfFuel => (fuel < turns_left K batch_size (count (g_env g)) g)%nat
  end.
Proof.
  induction fuel as [|fuel IH]; intros g Hinv Hacc; simpl.
  - destruct (loop_body_scripted Hinv Hacc)
      as (out & g' & _ & [(_ & _ & <-)|(_ & _ & _ & _ & ->)]); lia.
  - destruct (loop_body_scripted Hinv Hacc)
      as (out & g' & -> & [(-> & Hinv' & Hturn)|(b & -> & Hb & Hready & _)]).
    + specialize (IH g' Hinv' Hacc).
      destruct (next_batch _ _ _ fuel net batch_size g'); auto. lia.
    + auto.
Qed.

Lemma emitted_scripted_all fuel nets : forall g,
  scripted_ready K batch_size count g ->
  Forall (sampler_accepts Softmax random_choice) nets ->
  (K * Z.to_nat batch_size <= fuel)%nat ->
  length (emitted Softmax random_choice env fuel nets batch_size g)
  = length nets.
Proof.
  induction nets as [|net nets IH]; intros g Hready Hnets Hfuel; simpl;
    [reflexivity|].
  inversion Hnets as [|? ? Hacc Hnets']; subst.
  destruct Hready as (Hinv & Hnil & Hzero).
  pose proof (next_batch_scripted fuel Hinv Hacc) as H.
  destruct (next_batch _ _ _ fuel net batch_size g) as [b g'| |];
    [|contradiction|].
  - destruct H as [_ Hready']. simpl. now rewrite IH.
  - exfalso. unfold turns_left in H. rewrite Hnil, Hzero in H. simpl in H.
    rewrite Nat.sub_0_r in H. lia.
Qed.

End PositiveBatchSize.

(** C8: on an environment that ends every episode after exactly [K] steps
    of reward 1.0, every batch the generator emits has exactly [batch_size]
    episodes, each of total reward [K] and of [K] steps; and with a positive
    [batch_size], a sampler that accepts the scorers' probabilities and
    [K * batch_size] turns of fuel per pull, every pull emits a batch. *)
Theorem scripted_batches_have_K_step_episodes :
  forall fuel nets e rng,
    Forall (fun batch =>
              Z.of_nat (length batch) = batch_size /\
              Forall (fun example =>
                        reward example == inject_Z (Z.of_nat K) /\
                        length (steps example) = K) batch)
           (emitted Softmax random_choice env fuel nets batch_size
              (gen_init env e rng)) /\
    ((1 <= batch_size)%Z ->
     Forall (sampler_accepts Softmax random_choice) nets ->
     (K * Z.to_nat batch_size <= fuel)%nat ->
     length (emitted Softmax random_choice env fuel nets batch_size
               (gen_init env e rng)) = length nets).
Proof.
  intros fuel nets e rng. split.
  - exact (emitted_scripted_frame fuel nets (gen_init_frame e rng)).
  - intros Hbs Hnets Hfuel.
    exact (emitted_scripted_all Hbs (gen_init_ready Hbs e rng) Hnets Hfuel).
Qed.

End ScriptedEnvironment.

(** ** The training loop *)

Section TrainerFacts.
Variables Obs EnvSt Rng Params : Type.
Variable Softmax : list score -> list score.
Variable random_choice : Rng -> nat -> list score -> result (Action * Rng).
Variable env : Environment Obs EnvSt.
Variable forward : Params -> Obs -> list score.
Variable update : Params -> list Obs -> list Action -> result (Params * Q).

Implicit Types (t : Trainer Obs EnvSt Rng Params) (batch : Batch Obs).

Lemma iteration_ok p iter_no batch ts p' loss :
  filter_batch batch PERCENTILE = Ok ts ->
  update p (train_obs_v ts) (train_act_v ts) = Ok (p', loss) ->
  iteration update p iter_no batch =
  let line := Report iter_no loss (reward_mean ts) (reward_bound ts) in
  if Np.Qltb SOLVED (reward_mean ts)
  then Ok (p', [line; SolvedMsg], true)
  else Ok (p', [line], false).
Proof.
  intros Hf Hu. unfold iteration. rewrite Hf. simpl. rewrite Hu. reflexivity.
Qed.

(** C5: in a turn of the loop whose batch was pulled, filtered and trained
    on, the loop leaves through [break] exactly when [reward_mean] is above
    199, and then pulls nothing more however many turns it is allowed;
    with [reward_mean] at most 199 it goes back to pull the next batch. *)
Theorem trainer_breaks_iff_mean_above_199 :
  forall fuel t batch g' ts p' loss,
    next_batch Softmax random_choice env fuel (forward (t_params t))
      BATCH_SIZE (t_gen t) = Yielded batch g' ->
    filter_batch batch PERCENTILE = Ok ts ->
    update (t_params t) (train_obs_v ts) (train_act_v ts) = Ok (p', loss) ->
    let line := Report (t_iter_no t) loss (reward_mean ts) (reward_bound ts) in
    let stopped :=
      mkTrainer p' g' (S (t_iter_no t)) (t_log t ++ [line; SolvedMsg]) in
    let resumed := mkTrainer p' g' (S (t_iter_no t)) (t_log t ++ [line]) in
    ((exists t', trainer_step Softmax random_choice env forward update fuel t
                 = Solved t') <-> 199 < reward_mean ts) /\
    (199 < reward_mean ts ->
     forall iters,
       training_loop Softmax random_choice env forward update (S iters) fuel t
         = Solved stopped /\
       pulled_batches Softmax random_choice env forward update (S iters) fuel t
         = [batch]) /\
    (reward_mean ts <= 199 ->
     forall iters,
       training_loop Softmax random_choice env forward update (S iters) fuel t
         = training_loop Softmax random_choice env forward update iters fuel
             resumed /\
       pulled_batches Softmax random_choice env forward update (S iters) fuel t
         = batch :: pulled_batches Softmax random_choice env forward update
                      iters fuel resumed).
Proof.
  intros fuel t batch g' ts p' loss Hpull Hf Hu line stopped resumed.
  assert (trainer_step Softmax random_choice env forward update fuel t =
          if Np.Qltb SOLVED (reward_mean ts)
          then Solved stopped else Continue resumed) as Hstep.
  { unfold trainer_step. rewrite Hpull, (iteration_ok _ _ Hf Hu).
    cbv zeta. now destruct (Np.Qltb SOLVED (reward_mean ts)). }
  split; [|split].
  - rewrite Hstep. destruct (Np.Qltb SOLVED (reward_mean ts)) eqn:E.
    + apply Qltb_true in E. split; [auto|]. intros _. now exists stopped.
    + apply Qltb_false in E. split.
      * intros [t' Ht']. discriminate.
      * intros Hlt. exfalso. apply (Qlt_not_le _ _ Hlt E).
  - intros Hlt iters. apply Qltb_true in Hlt. unfold SOLVED in Hstep.
    simpl. rewrite Hpull, Hstep, Hlt. auto.
  - intros Hle iters. apply Qltb_false in Hle. unfold SOLVED in Hstep.
    simpl. rewrite Hpull, Hstep, Hle. auto.
Qed.


End TrainerFacts.

(** ** The statements at concrete inputs *)

Example filter_batch_three_episodes :
  filter_batch three_episodes 70
  = Ok (mkTrainingSet [3%nat; 4%nat] [0%nat; 1%nat] (2400 # 100) (60 # 3)).
Proof. vm_compute. reflexivity. Qed.

Lemma filter_batch_selects_by_reward_bound_witness :
  filter_batch three_episodes 70
    = Ok (mkTrainingSet [3%nat; 4%nat] [0%nat; 1%nat] (2400 # 100) (60 # 3)) /\
  exists parts : list (list (EpisodeStep nat)),
    Forall2 (fun example part =>
               ((2400 # 100) <= reward example -> part = steps example) /\
               (reward example < (2400 # 100) -> part = []))
            three_episodes parts /\
    [3%nat; 4%nat] = map observation (concat parts) /\
    [0%nat; 1%nat] = map action (concat parts).
Proof.
  split; [reflexivity|].
  apply (@filter_batch_selects_by_reward_bound nat three_episodes 70
           (mkTrainingSet [3%nat; 4%nat] [0%nat; 1%nat] (2400 # 100) (60 # 3))).
  reflexivity.
Defined.

Lemma filter_batch_parallel_sequences_witness :
  let ts := mkTrainingSet [3%nat; 4%nat] [0%nat; 1%nat] (2400 # 100) (60 # 3) in
  filter_batch three_episodes 70 = Ok ts /\
  length (train_obs_v ts) = length (train_act_v ts) /\
  (length (train_obs_v ts) <= total_steps three_episodes)%nat.
Proof.
  intros ts. split; [reflexivity|].
  destruct (@filter_batch_parallel_sequences nat three_episodes 70 ts eq_refl)
    as (Hlen & Hle & _).
  split; [exact Hlen|exact Hle].
Defined.

Lemma reward_bound_at_100_and_0_witness :
  three_episodes <> [] /\
  (exists ts, filter_batch three_episodes 100 = Ok ts /\
              reward_bound ts == Np.maximum (map reward three_episodes)) /\
  (exists ts, filter_batch three_episodes 0 = Ok ts /\
              reward_bound ts == Np.minimum (map reward three_episodes)).
Proof.
  assert (three_episodes <> []) as H by discriminate.
  split; [exact H|].
  exact (@reward_bound_at_100_and_0 nat three_episodes H).
Defined.




Lemma first_choice_is_first_pick :
  forall rng n probs, drawn (first_choice rng n probs) = first_pick probs.
Proof. intros rng n [|x probs]; reflexivity. Qed.

Lemma iterate_batches_deterministic_witness :
  emitted softmax_standin first_choice (scripted_env 3) 6
    [flat_net; flat_net] 2 (gen_init (scripted_env 3) O 5%nat) =
  emitted softmax_standin first_choice (scripted_env 3) 6
    [flat_net; flat_net] 2 (gen_init (scripted_env 3) O 7%nat).
Proof.
  apply (@iterate_batches_deterministic nat nat nat softmax_standin
           first_choice (scripted_env 3) first_pick).
  exact first_choice_is_first_pick.
Defined.

Lemma first_choice_accepts_flat_net :
  sampler_accepts softmax_standin first_choice flat_net.
Proof. intros rng o. exists O, (S rng). reflexivity. Qed.

Lemma scripted_batches_have_K_step_episodes_witness :
  Forall (fun batch =>
            Z.of_nat (length batch) = 2%Z /\
            Forall (fun example =>
                      reward example == inject_Z (Z.of_nat 3) /\
                      length (steps example) = 3%nat) batch)
         (emitted softmax_standin first_choice (scripted_env 3) 6
            [flat_net; flat_net] 2 (gen_init (scripted_env 3) O O)) /\
  length (emitted softmax_standin first_choice (scripted_env 3) 6
            [flat_net; flat_net] 2 (gen_init (scripted_env 3) O O)) = 2%nat.
Proof.
  assert (forall e : nat, snd (env_reset (scripted_env 3) e) = O) as Hreset
    by (intros e; reflexivity).
  assert (forall (e : nat) (a : Action), (e < 3)%nat ->
            exists o e',
              env_step (scripted_env 3) e a = Ok (o, 1, Nat.eqb (S e) 3, e') /\
              e' = S e) as Hstep
    by (intros e a _; exists (S e), (S e); split; reflexivity).
  destruct (@scripted_batches_have_K_step_episodes nat nat nat softmax_standin
              first_choice (scripted_env 3) 3 2 (fun n => n)
              ltac:(lia) Hreset Hstep 6%nat [flat_net; flat_net] O O)
    as [Hshape Hcount].
  split; [exact Hshape|].
  apply Hcount.
  - lia.
  - repeat constructor; exact first_choice_accepts_flat_net.
  - simpl. lia.
Defined.

Lemma generated_batches_have_elite_steps_witness :
  Forall (fun batch =>
            batch <> [] /\
            Forall (fun example => steps example <> []) batch /\
            forall q, 0 <= q -> q <= 100 ->
              exists ts,
                filter_batch batch q = Ok ts /\
                (exists best,
                    In best batch /\
                    reward best = Np.maximum (map reward batch) /\
                    elite (reward_bound ts) best = true) /\
                train_obs_v ts <> [] /\ train_act_v ts <> [])
         (emitted softmax_standin first_choice (scripted_env 3) 6
            [flat_net; flat_net] 2 (gen_init (scripted_env 3) O O)).
Proof.
  exact (proj2 (@generated_batches_have_elite_steps nat nat nat softmax_standin
                  first_choice (scripted_env 3))
               6%nat [flat_net; flat_net] 2%Z O O).
Defined.

Example scripted_run_emits_two_batches :
  map (map (fun example => (reward example, length (steps example))))
      (emitted softmax_standin first_choice (scripted_env 3) 6
         [flat_net; flat_net] 2 (gen_init (scripted_env 3) O O))
  = [[(3, 3%nat); (3, 3%nat)]; [(3, 3%nat); (3, 3%nat)]].
Proof. vm_compute. reflexivity. Qed.



Lemma trainer_breaks_iff_mean_above_199_witness :
  first_pull = Yielded first_batch first_frame /\
  filter_batch first_batch PERCENTILE = Ok first_training_set /\
  reward_mean first_training_set <= 199 /\
  training_loop softmax_standin first_choice (scripted_env 2)
    (fun _ => flat_net) counting_update 1 32 (fresh_trainer 2)
  = Continue (mkTrainer [32%nat] first_frame 1
                [Report O 0 (reward_mean first_training_set)
                   (reward_bound first_training_set)]).
Proof.
  assert (reward_mean first_training_set <= 199) as Hmean
    by (vm_compute; discriminate).
  split; [reflexivity|]. split; [reflexivity|]. split; [exact Hmean|].
  refine (proj1 (proj2 (proj2
    (@trainer_breaks_iff_mean_above_199 nat nat nat (list nat)
       softmax_standin first_choice (scripted_env 2)
       (fun _ => flat_net) counting_update 32 (fresh_trainer 2)
       first_batch first_frame first_training_set [32%nat] 0 _ _ _))
    Hmean O)); vm_compute; reflexivity.
Defined.
(** Episodes of 200 steps: the first batch has mean reward 200 and the loop
    stops after it, with turns to spare. *)
Example trainer_solved_on_first_batch :
  match training_loop softmax_standin first_choice (scripted_env 200)
          (fun _ => flat_net) counting_update 5 3200 (fresh_trainer 200) with
  | Solved t' => t_iter_no t' = 1%nat /\ last (t_log t') SolvedMsg = SolvedMsg
  | _ => False
  end /\
  length (pulled_batches softmax_standin first_choice (scripted_env 200)
            (fun _ => flat_net) counting_update 5 3200 (fresh_trainer 200))
  = 1%nat.
Proof. vm_compute. split; [split|]; reflexivity. Qed.

(** * Further properties *)

(** ** The generator on any environment *)

Section GeneratorShape.
Variables Obs EnvSt Rng : Type.
Variable Softmax : list score -> list score.
Variable random_choice : Rng -> nat -> list score -> result (Action * Rng).
Variable env : Environment Obs EnvSt.

Implicit Types (g : GenState Obs EnvSt Rng) (net : Obs -> list score)
  (batch : Batch Obs).

Lemma next_batch_full net batch_size fuel : forall g batch g',
  next_batch Softmax random_choice env fuel net batch_size g
    = Yielded batch g' ->
  Z.of_nat (length batch) = batch_size /\ batch <> [].
Proof.
  induction fuel as [|fuel IH]; intros g batch g'; simpl; [discriminate|].
  destruct (loop_body _ _ _ net batch_size g) as [[[b|] g1]|x] eqn:Hl;
    try discriminate.
  - intros [= <- <-]. apply loop_body_ok in Hl.
    destruct Hl as (a & rng & o & r & d & e & _ & _ & _ &
                    [(_ & Hout & _)|(_ & _ & _ & _ & Hy)]);
      [discriminate|].
    cbv zeta in Hy. destruct Hy as [(Hfull & [= ->] & _)|(_ & Hout & _)];
      [|discriminate].
    split; [exact Hfull|]. now destruct (g_batch g).
  - apply IH.
Qed.

(** X1: whatever the environment, the scorers and the frame it is resumed
    from, the generator only ever yields batches of exactly [batch_size]
    episodes; with a [batch_size] of 0 or less no pull yields, however many
    turns it is given. *)
Theorem generator_yields_full_batches_only :
  forall fuel nets batch_size g,
    Forall (fun batch => Z.of_nat (length batch) = batch_size)
           (emitted Softmax random_choice env fuel nets batch_size g) /\
    ((batch_size <= 0)%Z ->
     forall net batch g',
       next_batch Softmax random_choice env fuel net batch_size g
         <> Yielded batch g').
Proof.
  intros fuel nets batch_size g. split.
  - revert g. induction nets as [|net nets IH]; intros g; simpl;
      [constructor|].
    destruct (next_batch _ _ _ fuel net batch_size g) as [b g'| |] eqn:Hn;
      try constructor.
    + now destruct (next_batch_full _ _ _ _ Hn).
    + apply IH.
  - intros Hbs net batch g' Hn.
    destruct (next_batch_full _ _ _ _ Hn) as [Hlen Hne].
    destruct batch; [congruence|]. simpl in Hlen. lia.
Qed.

(** *** Episodes are trajectories *)

Lemma segment_snoc sts : forall e o w e' o' w' st o1 r e1,
  segment env e o w sts e' o' w' ->
  observation st = o' ->
  env_step env e' (action st) = Ok (o1, r, false, e1) ->
  segment env e o w (sts ++ [st]) e1 o1 (w' + r).
Proof.
  induction sts as [|s0 sts IH]; intros e o w e' o' w' st o1 r e1; simpl.
  - intros (-> & -> & ->) Hobs Hstep. split; [assumption|].
    exists o1, r, e1. split; [assumption|]. repeat split; reflexivity.
  - intros (Hs0 & o2 & r2 & e2 & Hstep0 & Hseg) Hobs Hstep.
    split; [assumption|]. exists o2, r2, e2. split; [assumption|].
    now apply (IH _ _ _ _ _ _ st o1 r e1 Hseg).
Qed.

Lemma gen_init_trajectory (e : EnvSt) (rng : Rng) :
  trajectory_frame env (gen_init env e rng).
Proof.
  unfold gen_init, trajectory_frame, in_episode.
  destruct (env_reset env e) as [o e'] eqn:Hr. simpl.
  split; [constructor|]. exists e. rewrite Hr. simpl.
  repeat split; reflexivity.
Qed.

Lemma loop_body_trajectory net batch_size g out g' :
  trajectory_frame env g ->
  loop_body Softmax random_choice env net batch_size g = Ok (out, g') ->
  trajectory_frame env g' /\
  forall batch, out = Some batch -> Forall (complete_episode env) batch.
Proof.
  intros (Hbatch & e0 & Hseg) H. apply loop_body_ok in H.
  destruct H as (a & rng & o & r & d & e & _ & Hs & _ &
                 [(-> & -> & ->)|(-> & Hw & Hst & Hreset & Hy)]).
  - split; [|discriminate]. split; [exact Hbatch|].
    exists e0. simpl.
    eapply segment_snoc; [exact Hseg|reflexivity|exact Hs].
  - assert (complete_episode env (closed_episode g a r)) as Hep.
    { exists e0, (g_episode_steps g), (mkStep (g_obs g) a), (g_env g),
        (g_obs g), (g_episode_reward g), o, r, e.
      repeat split; try reflexivity; assumption. }
    assert (Forall (complete_episode env)
              (g_batch g ++ [closed_episode g a r])) as Hall.
    { apply Forall_app. split; [assumption|]. now constructor. }
    assert (in_episode env g') as Hin.
    { exists e. rewrite Hst, Hw, <- Hreset. simpl.
      repeat split; reflexivity. }
    cbv zeta in Hy. destruct Hy as [(_ & -> & Hb)|(_ & -> & Hb)].
    + split; [split; [rewrite Hb; constructor|exact Hin]|].
      now intros batch [= <-].
    + split; [split; [rewrite Hb; exact Hall|exact Hin]|discriminate].
Qed.

Lemma next_batch_trajectory net batch_size fuel : forall g batch g',
  trajectory_frame env g ->
  next_batch Softmax random_choice env fuel net batch_size g
    = Yielded batch g' ->
  Forall (complete_episode env) batch /\ trajectory_frame env g'.
Proof.
  induction fuel as [|fuel IH]; intros g batch g' Hinv; simpl; [discriminate|].
  destruct (loop_body _ _ _ net batch_size g) as [[out g1]|x] eqn:Hl;
    [|discriminate].
  destruct (@loop_body_trajectory net batch_size g out g1 Hinv Hl)
    as [Hinv1 Hout].
  destruct out as [b|].
  - intros [= <- <-]. auto.
  - now apply IH.
Qed.

(** X2: every episode of every batch the generator emits is a whole
    trajectory of the environment: it starts at a reset, each step holds the
    observation shown and the action then taken, the environment reported
    [done] at its last step and at none before, and its reward is the sum,
    in order, of the rewards of its steps. *)
Theorem emitted_episodes_are_trajectories :
  forall fuel nets batch_size e rng,
    Forall (Forall (complete_episode env))
           (emitted Softmax random_choice env fuel nets batch_size
              (gen_init env e rng)).
Proof.
  intros fuel nets batch_size e rng.
  pose proof (gen_init_trajectory e rng) as Hinit.
  revert Hinit. generalize (gen_init env e rng).
  induction nets as [|net nets IH]; intros g Hinv; simpl; [constructor|].
  destruct (next_batch _ _ _ fuel net batch_size g) as [b g'| |] eqn:Hn;
    try constructor.
  - now destruct (@next_batch_trajectory net batch_size fuel g b g' Hinv Hn).
  - apply IH.
    now destruct (@next_batch_trajectory net batch_size fuel g b g' Hinv Hn).
Qed.

(** *** The last cell collects the generator's first batch *)

Lemma collect_turn_loop_body net batch_size g :
  collect_turn Softmax random_choice env net g =
  match loop_body Softmax random_choice env net batch_size g with
  | Ok (Some batch, g') => Ok (with_batch batch g')
  | Ok (None, g') => Ok g'
  | Raise x => Raise x
  end.
Proof.
  unfold collect_turn, loop_body.
  destruct (random_choice _ _ _) as [[a rng]|x]; simpl; [|reflexivity].
  destruct (env_step env (g_env g) a) as [[[[o r] d] e]|x]; simpl;
    [|reflexivity].
  destruct d; [|reflexivity].
  destruct (env_reset env e) as [o' e'].
  destruct (_ =? _)%Z; reflexivity.
Qed.

Lemma collect_next_batch net batch_size fuel : forall g,
  (Z.of_nat (length (g_batch g)) < batch_size)%Z ->
  match next_batch Softmax random_choice env fuel net batch_size g,
        collect Softmax random_choice env fuel net batch_size g with
  | Yielded batch g', Collected c => c = with_batch batch g'
  | Raised x, Failed y => x = y
  | OutOfFuel, Unfinished => True
  | _, _ => False
  end.
Proof.
  induction fuel as [|fuel IH]; intros g Hlen.
  - simpl. apply Z.ltb_lt in Hlen. now rewrite Hlen.
  - simpl. pose proof Hlen as Hlt. apply Z.ltb_lt in Hlt. rewrite Hlt.
    rewrite (collect_turn_loop_body net batch_size g).
    destruct (loop_body _ _ _ net batch_size g) as [[[b|] g1]|x] eqn:Hl;
      [| |reflexivity].
    + assert (next_batch Softmax random_choice env (S fuel) net batch_size g
              = Yielded b g1) as Hn by (simpl; now rewrite Hl).
      destruct (next_batch_full _ _ _ _ Hn) as [Hfull _].
      destruct fuel; simpl; rewrite Hfull, Z.ltb_irrefl; reflexivity.
    + apply IH. apply loop_body_ok in Hl.
      destruct Hl as (a & rng & o & r & d & e & _ & _ & _ &
                      [(_ & _ & ->)|(_ & _ & _ & _ & Hy)]);
        [exact Hlen|].
      cbv zeta in Hy. destruct Hy as [(_ & Hout & _)|(Hne & _ & ->)];
        [discriminate|].
      rewrite length_app in Hne |- *. simpl in Hne |- *. lia.
Qed.

(** X3: started from the same environment and generator states with the
    same scorer, the [while len(batch) < batch_size] loop of the last cell
    ends with exactly the batch of the generator's first [yield], fails with
    the same error, and is cut off by the same fuel, when [batch_size] is at
    least 1; with a [batch_size] of 0 or less it ends at once with the empty
    batch. *)
Theorem last_cell_collects_first_batch :
  forall fuel net batch_size e rng,
    ((1 <= batch_size)%Z ->
     (forall batch,
         (exists g', next_batch Softmax random_choice env fuel net batch_size
                       (gen_init env e rng) = Yielded batch g') <->
         (exists c, collect Softmax random_choice env fuel net batch_size
                      (gen_init env e rng) = Collected c /\
                    g_batch c = batch)) /\
     (forall x,
         next_batch Softmax random_choice env fuel net batch_size
           (gen_init env e rng) = Raised x <->
         collect Softmax random_choice env fuel net batch_size
           (gen_init env e rng) = Failed x)) /\
    ((batch_size <= 0)%Z ->
     collect Softmax random_choice env fuel net batch_size
       (gen_init env e rng) = Collected (gen_init env e rng) /\
     g_batch (gen_init env e rng) = []).
Proof.
  intros fuel net batch_size e rng.
  assert (g_batch (gen_init env e rng) = []) as Hnil
    by (unfold gen_init; now destruct (env_reset env e)).
  split.
  - intros Hbs.
    assert (Z.of_nat (length (g_batch (gen_init env e rng))) < batch_size)%Z
      as Hlen by (rewrite Hnil; simpl; lia).
    pose proof (@collect_next_batch net batch_size fuel _ Hlen) as H.
    destruct (next_batch _ _ _ fuel net batch_size (gen_init env e rng))
      as [b g'|x|];
      destruct (collect _ _ _ fuel net batch_size (gen_init env e rng))
        as [c|y|]; try contradiction.
    + subst c. split.
      * intros batch. split.
        -- intros [g1 [= <- <-]]. eexists. split; reflexivity.
        -- intros [c [[= <-] <-]]. now exists g'.
      * intros x. split; discriminate.
    + subst y. split.
      * intros batch. split; [intros [g1 Hg1]|intros [c [Hc _]]];
          discriminate.
      * intros z. split; intros [= <-]; reflexivity.
    + split.
      * intros batch. split; [intros [g1 Hg1]|intros [c [Hc _]]];
          discriminate.
      * intros z. split; discriminate.
  - intros Hbs. split; [|exact Hnil].
    assert ((Z.of_nat (length (g_batch (gen_init env e rng))) <? batch_size)%Z
            = false) as Hcond by (rewrite Hnil; simpl; apply Z.ltb_ge; lia).
    destruct fuel; simpl; rewrite Hcond; reflexivity.
Qed.

End GeneratorShape.

(** ** More on the bound and the mean *)

Module PercentileOrder.
Import Np NpFacts PercentileFacts.

Lemma percentile_ok l q r :
  percentile l q = Ok r -> l <> [] /\ 0 <= q /\ q <= 100.
Proof.
  unfold percentile.
  destruct (Qle_bool 0 q) eqn:H0; [|discriminate].
  destruct (Qle_bool q 100) eqn:H100; [|discriminate].
  apply Qle_bool_iff in H0, H100. simpl.
  destruct l; [discriminate|]. intros _. repeat split; auto. discriminate.
Qed.

Lemma virtual_index_le n q1 q2 :
  q1 <= q2 -> virtual_index n q1 <= virtual_index n q2.
Proof.
  intros Hq. unfold virtual_index.
  apply Qmult_le_compat_r.
  - unfold Qdiv. apply Qmult_le_compat_r; [assumption|discriminate].
  - change 0 with (inject_Z 0). rewrite <- Zle_Qle. lia.
Qed.

Lemma percentile_value l q r :
  percentile l q = Ok r -> r = interpolated l q.
Proof.
  intros H. destruct (percentile_ok _ _ H) as (Hl & H0 & H100).
  rewrite (percentile_unfold Hl H0 H100) in H. unfold interpolated.
  congruence.
Qed.

(** A higher percentile never gives a lower value. *)
Lemma percentile_monotone l q1 q2 r1 r2 :
  percentile l q1 = Ok r1 -> percentile l q2 = Ok r2 ->
  q1 <= q2 -> r1 <= r2.
Proof.
  intros H1 H2 Hq.
  destruct (percentile_ok _ _ H1) as (Hl & H10 & H1100).
  destruct (percentile_ok _ _ H2) as (_ & H20 & H2100).
  rewrite (percentile_value _ _ H1), (percentile_value _ _ H2).
  unfold interpolated. cbv zeta.
  destruct (floor_index_range (length l) H10 H1100) as (Hk1 & Hg10 & Hg11).
  destruct (floor_index_range (length l) H20 H2100) as (Hk2 & Hg20 & Hg21).
  pose proof (virtual_index_le (length l) Hq) as Hv.
  pose proof (Qfloor_resp_le _ _ Hv) as Hf.
  destruct (virtual_index_range (length l) H10 H1100) as [Hv10 _].
  assert (0 <= Qfloor (virtual_index (length l) q1))%Z as Hf0.
  { change 0%Z with (Qfloor 0). now apply Qfloor_resp_le. }
  set (v1 := virtual_index (length l) q1) in *.
  set (v2 := virtual_index (length l) q2) in *.
  assert (0 < length l)%nat as Hlen by (destruct l; simpl; [congruence|lia]).
  pose proof (sort_ascending l) as Hasc.
  assert (forall i j, (i <= j)%nat -> (j <= length l - 1)%nat ->
            nth i (sort l) 0 <= nth j (sort l) 0) as Hnth.
  { intros i j Hij Hj. apply ascending_nth; [assumption|].
    rewrite sort_length. lia. }
  destruct (Z.eq_dec (Qfloor v1) (Qfloor v2)) as [Heq|Hne].
  - rewrite <- Heq.
    set (k := Z.to_nat (Qfloor v1)) in *.
    set (lo := nth k (sort l) 0).
    set (hi := nth (Nat.min (k + 1) (length l - 1)) (sort l) 0).
    assert (lo <= hi) as Hlh by (apply Hnth; lia).
    apply Qplus_le_r.
    rewrite (Qmult_comm _ (v1 - _)), (Qmult_comm _ (v2 - _)).
    apply Qmult_le_compat_r; lra.
  - set (k1 := Z.to_nat (Qfloor v1)) in *.
    set (k2 := Z.to_nat (Qfloor v2)) in *.
    assert (k1 + 1 <= k2)%nat as Hk by (unfold k1, k2; lia).
    set (j1 := Nat.min (k1 + 1) (length l - 1)).
    set (j2 := Nat.min (k2 + 1) (length l - 1)).
    assert (nth k1 (sort l) 0 <= nth j1 (sort l) 0) as Hlh1
      by (apply Hnth; unfold j1; lia).
    assert (nth k2 (sort l) 0 <= nth j2 (sort l) 0) as Hlh2
      by (apply Hnth; unfold j2; lia).
    assert (nth j1 (sort l) 0 <= nth k2 (sort l) 0) as Hmid
      by (apply Hnth; unfold j1; lia).
    destruct (interpolation_bounds
                (m:=nth k1 (sort l) 0) (M:=nth j1 (sort l) 0)
                (x:=nth k1 (sort l) 0) (y:=nth j1 (sort l) 0)
                (g:=v1 - inject_Z (Qfloor v1)))
      as [_ Hup]; try assumption; try apply Qle_refl.
    destruct (interpolation_bounds
                (m:=nth k2 (sort l) 0) (M:=nth j2 (sort l) 0)
                (x:=nth k2 (sort l) 0) (y:=nth j2 (sort l) 0)
                (g:=v2 - inject_Z (Qfloor v2)))
      as [Hdown _]; try assumption; try apply Qle_refl.
    eapply Qle_trans; [exact Hup|]. eapply Qle_trans; [exact Hmid|exact Hdown].
Qed.

(** The value is one of two order statistics or lies between them, and the
    upper one is at position [min (k + 1) (n - 1)]. *)
Lemma percentile_below_next l q r :
  percentile l q = Ok r ->
  let k := Z.to_nat (Qfloor (virtual_index (length l) q)) in
  r <= nth (Nat.min (k + 1) (length l - 1)) (sort l) 0.
Proof.
  intros H. destruct (percentile_ok _ _ H) as (Hl & H0 & H100).
  rewrite (percentile_value _ _ H). unfold interpolated. cbv zeta.
  destruct (floor_index_range (length l) H0 H100) as (Hk & Hg0 & Hg1).
  assert (0 < length l)%nat as Hlen by (destruct l; simpl; [congruence|lia]).
  set (k := Z.to_nat (Qfloor (virtual_index (length l) q))) in *.
  assert (nth k (sort l) 0 <= nth (Nat.min (k + 1) (length l - 1)) (sort l) 0)
    as Hlh.
  { apply ascending_nth; [apply sort_ascending|]. rewrite sort_length. lia. }
  destruct (interpolation_bounds
              (m:=nth k (sort l) 0)
              (M:=nth (Nat.min (k + 1) (length l - 1)) (sort l) 0)
              (x:=nth k (sort l) 0)
              (y:=nth (Nat.min (k + 1) (length l - 1)) (sort l) 0)
              (g:=virtual_index (length l) q
                  - inject_Z (Qfloor (virtual_index (length l) q))))
    as [_ Hup]; try assumption; try apply Qle_refl.
Qed.

Lemma insert_permutation a l : Permutation (insert a l) (a :: l).
Proof.
  induction l as [|y l IH]; simpl; [reflexivity|].
  destruct (Qle_bool a y); [reflexivity|].
  rewrite IH. apply perm_swap.
Qed.

Lemma sort_permutation l : Permutation (sort l) l.
Proof.
  induction l as [|y l IH]; simpl; [reflexivity|].
  rewrite insert_permutation. now apply perm_skip.
Qed.

Lemma filter_length_permutation (f : Q -> bool) l l' :
  Permutation l l' -> length (filter f l) = length (filter f l').
Proof.
  induction 1 as [|x l l' _ IH|x y l|l l' l'' _ IH1 _ IH2]; simpl.
  - reflexivity.
  - destruct (f x); simpl; congruence.
  - destruct (f x), (f y); reflexivity.
  - congruence.
Qed.

(** In an ascending list, everything from position [j] on is at least the
    value at [j]. *)
Lemma ascending_count b l : forall j,
  ascending l -> (j < length l)%nat -> b <= nth j l 0 ->
  (length l - j <= length (filter (Qle_bool b) l))%nat.
Proof.
  induction l as [|x l IH]; intros j Hasc Hj Hb; simpl in *; [lia|].
  destruct Hasc as [Hx Hasc].
  destruct j as [|j].
  - assert (forall y, In y (x :: l) -> Qle_bool b y = true) as Hall.
    { intros y [<-|Hy]; apply Qle_bool_iff; [assumption|].
      apply Qle_trans with x; auto. }
    assert (filter (Qle_bool b) (x :: l) = x :: l) as Hf.
    { apply forallb_filter_id. apply forallb_forall. exact Hall. }
    simpl in Hf. rewrite Hf. simpl. lia.
  - assert (length l - j <= length (filter (Qle_bool b) l))%nat as H
      by (apply IH; [assumption|lia|assumption]).
    destruct (Qle_bool b x); simpl; lia.
Qed.

(** Sums and means between the least and the greatest value. *)
Lemma succ_inject (n : nat) :
  inject_Z (Z.of_nat (S n)) == inject_Z (Z.of_nat n) + 1.
Proof.
  rewrite Nat2Z.inj_succ. unfold Z.succ. rewrite inject_Z_plus. reflexivity.
Qed.

Lemma sum_upper M l : forall a,
  (forall x, In x l -> x <= M) ->
  fold_left Qplus l a <= a + inject_Z (Z.of_nat (length l)) * M.
Proof.
  induction l as [|x l IH]; intros a Hall.
  - simpl. change (inject_Z 0) with 0. lra.
  - change (fold_left Qplus (x :: l) a) with (fold_left Qplus l (a + x)).
    change (length (x :: l)) with (S (length l)). rewrite succ_inject.
    assert (x <= M) as Hx by (apply Hall; now left).
    assert (fold_left Qplus l (a + x)
            <= a + x + inject_Z (Z.of_nat (length l)) * M) as H
      by (apply IH; intros y Hy; apply Hall; now right).
    lra.
Qed.

Lemma sum_lower m l : forall a,
  (forall x, In x l -> m <= x) ->
  a + inject_Z (Z.of_nat (length l)) * m <= fold_left Qplus l a.
Proof.
  induction l as [|x l IH]; intros a Hall.
  - simpl. change (inject_Z 0) with 0. lra.
  - change (fold_left Qplus (x :: l) a) with (fold_left Qplus l (a + x)).
    change (length (x :: l)) with (S (length l)). rewrite succ_inject.
    assert (m <= x) as Hx by (apply Hall; now left).
    assert (a + x + inject_Z (Z.of_nat (length l)) * m
            <= fold_left Qplus l (a + x)) as H
      by (apply IH; intros y Hy; apply Hall; now right).
    lra.
Qed.

Lemma sum_constant r l : forall a,
  (forall x, In x l -> x == r) ->
  fold_left Qplus l a == a + inject_Z (Z.of_nat (length l)) * r.
Proof.
  intros a Hall. apply Qle_antisym.
  - apply sum_upper. intros x Hx. rewrite (Hall x Hx). apply Qle_refl.
  - apply sum_lower. intros x Hx. rewrite (Hall x Hx). apply Qle_refl.
Qed.

Lemma length_positive (l : list Q) :
  l <> [] -> 0 < inject_Z (Z.of_nat (length l)).
Proof.
  intros Hl. change 0 with (inject_Z 0). rewrite <- Zlt_Qlt.
  destruct l; simpl; [congruence|lia].
Qed.

Lemma mean_between l :
  l <> [] -> minimum l <= mean l /\ mean l <= maximum l.
Proof.
  intros Hl. pose proof (length_positive Hl) as Hn.
  destruct (minimum_spec Hl) as [_ Hlb].
  destruct (maximum_spec Hl) as [_ Hub].
  pose proof (sum_upper l 0 Hub) as Hup.
  pose proof (sum_lower l 0 Hlb) as Hlo.
  unfold mean, sum. split.
  - apply Qle_shift_div_l; [assumption|]. lra.
  - apply Qle_shift_div_r; [assumption|]. lra.
Qed.

Lemma mean_constant r l :
  l <> [] -> (forall x, In x l -> x == r) -> mean l == r.
Proof.
  intros Hl Hall. pose proof (length_positive Hl) as Hn.
  unfold mean, sum. rewrite (sum_constant l 0 Hall).
  field. intros Hz. rewrite Hz in Hn. now apply (Qlt_irrefl 0).
Qed.

End PercentileOrder.

(** ** More on the elite filter *)

Section EliteFilterOrder.
Variable Obs : Type.
Implicit Types (batch : Batch Obs) (example : Episode Obs).

Lemma filter_batch_inputs batch q ts :
  filter_batch batch q = Ok ts -> batch <> [] /\ 0 <= q /\ q <= 100.
Proof.
  intros H. destruct (filter_batch_ok _ _ H) as (Hp & _).
  destruct (PercentileOrder.percentile_ok _ _ Hp) as (Hl & H0 & H100).
  repeat split; auto. intros ->. now apply Hl.
Qed.

Lemma elite_antitone b1 b2 example :
  b1 <= b2 -> elite b2 example = true -> elite b1 example = true.
Proof.
  intros Hb H. apply elite_true in H. apply elite_true.
  now apply Qle_trans with b2.
Qed.

Lemma contribution_antitone b1 b2 batch :
  b1 <= b2 ->
  (length (flat_map (contribution b2) batch)
   <= length (flat_map (contribution b1) batch))%nat.
Proof.
  intros Hb. induction batch as [|example batch IH]; simpl; [lia|].
  rewrite !length_app. unfold contribution at 1 3.
  destruct (elite b2 example) eqn:E2.
  - rewrite (elite_antitone example Hb E2). lia.
  - simpl. lia.
Qed.

Lemma all_elite_contribution bound batch :
  (forall example, In example batch -> elite bound example = true) ->
  flat_map (contribution bound) batch = flat_map steps batch.
Proof.
  induction batch as [|example batch IH]; intros Hel; simpl; [reflexivity|].
  unfold contribution at 1. rewrite (Hel example (or_introl eq_refl)).
  f_equal. apply IH. intros ex Hin. apply Hel. now right.
Qed.

(** X4: on the same batch a higher percentile gives a bound that is at
    least as high; every episode that is elite at the higher percentile is
    elite at the lower one, and the training sequences are at most as
    long. *)
Theorem higher_percentile_selects_less :
  forall batch q1 q2 ts1 ts2,
    filter_batch batch q1 = Ok ts1 ->
    filter_batch batch q2 = Ok ts2 ->
    q1 <= q2 ->
    reward_bound ts1 <= reward_bound ts2 /\
    (forall example,
        elite (reward_bound ts2) example = true ->
        elite (reward_bound ts1) example = true) /\
    (length (train_obs_v ts2) <= length (train_obs_v ts1))%nat /\
    (length (train_act_v ts2) <= length (train_act_v ts1))%nat.
Proof.
  intros batch q1 q2 ts1 ts2 H1 H2 Hq.
  destruct (filter_batch_ok _ _ H1) as (Hp1 & _ & Ho1 & Ha1).
  destruct (filter_batch_ok _ _ H2) as (Hp2 & _ & Ho2 & Ha2).
  pose proof (PercentileOrder.percentile_monotone _ Hp1 Hp2 Hq) as Hb.
  split; [exact Hb|]. split.
  - intros example. now apply elite_antitone.
  - rewrite Ho1, Ho2, Ha1, Ha2, !length_map.
    split; now apply contribution_antitone.
Qed.

(** X5: when all the episodes of the batch have the same reward, the bound
    and the mean are that reward at every percentile, every episode is
    elite, and the training sequences hold the steps of the whole batch. *)
Theorem equal_rewards_keep_whole_batch :
  forall batch q ts r,
    filter_batch batch q = Ok ts ->
    Forall (fun example => reward example == r) batch ->
    reward_bound ts == r /\ reward_mean ts == r /\
    Forall (fun example => elite (reward_bound ts) example = true) batch /\
    train_obs_v ts = map observation (flat_map steps batch) /\
    train_act_v ts = map action (flat_map steps batch).
Proof.
  intros batch q ts r H Hall.
  destruct (filter_batch_inputs _ _ H) as (Hb & H0 & H100).
  destruct (filter_batch_ok _ _ H) as (_ & Hm & Ho & Ha).
  destruct (filter_batch_returns Hb H0 H100) as (ts' & H' & Hmin & Hmax).
  assert (ts' = ts) as -> by congruence.
  rewrite Forall_forall in Hall.
  assert (forall x, In x (map reward batch) -> x == r) as Hr.
  { intros x Hx. apply in_map_iff in Hx. destruct Hx as (example & <- & Hin).
    now apply Hall. }
  destruct (NpFacts.minimum_spec (rewards_nonempty Hb)) as [Hmin_in _].
  destruct (NpFacts.maximum_spec (rewards_nonempty Hb)) as [Hmax_in _].
  assert (reward_bound ts == r) as Hbound.
  { apply Qle_antisym.
    - rewrite <- (Hr _ Hmax_in). exact Hmax.
    - rewrite <- (Hr _ Hmin_in). exact Hmin. }
  assert (forall example, In example batch ->
            elite (reward_bound ts) example = true) as Hel.
  { intros example Hin. apply elite_true.
    rewrite Hbound, (Hall _ Hin). apply Qle_refl. }
  assert (flat_map (contribution (reward_bound ts)) batch
          = flat_map steps batch) as Hflat
    by (now apply all_elite_contribution).
  split; [exact Hbound|]. split.
  - rewrite Hm.
    exact (PercentileOrder.mean_constant (rewards_nonempty Hb) Hr).
  - split; [now apply Forall_forall|]. rewrite Ho, Ha, Hflat. auto.
Qed.

Lemma elite_count bound batch :
  length (filter (elite bound) batch)
  = length (filter (Qle_bool bound) (map reward batch)).
Proof.
  induction batch as [|example batch IH]; simpl; [reflexivity|].
  unfold elite at 1. destruct (Qle_bool bound (reward example)); simpl;
    now rewrite IH.
Qed.

(** The episodes at the order statistics above position
    [floor (q/100 * (n-1))] are all elite. *)
Lemma elite_count_lower_bound batch q ts :
  filter_batch batch q = Ok ts ->
  let n := length batch in
  let k := Z.to_nat (Qfloor (Np.virtual_index n q)) in
  (n - Nat.min (k + 1) (n - 1)
   <= length (filter (elite (reward_bound ts)) batch))%nat.
Proof.
  intros H n k.
  destruct (filter_batch_inputs _ _ H) as (Hb & H0 & H100).
  destruct (filter_batch_ok _ _ H) as (Hp & _).
  pose proof (@PercentileOrder.percentile_below_next _ _ _ Hp) as Hnext.
  cbv zeta in Hnext. rewrite length_map in Hnext. fold n k in Hnext.
  rewrite elite_count.
  rewrite <- (@PercentileOrder.filter_length_permutation
                (Qle_bool (reward_bound ts)) _ _
                (PercentileOrder.sort_permutation (map reward batch))).
  assert (length (Np.sort (map reward batch)) = n) as Hlen
    by (now rewrite NpFacts.sort_length, length_map).
  assert (0 < n)%nat as Hn
    by (unfold n; destruct batch; simpl; [congruence|lia]).
  rewrite <- Hlen at 1.
  apply PercentileOrder.ascending_count;
    [apply NpFacts.sort_ascending|rewrite Hlen; lia|exact Hnext].
Qed.

Lemma notebook_batch_elites batch ts :
  Z.of_nat (length batch) = BATCH_SIZE ->
  filter_batch batch PERCENTILE = Ok ts ->
  (5 <= length (filter (elite (reward_bound ts)) batch))%nat.
Proof.
  intros Hsize H. pose proof (elite_count_lower_bound _ _ H) as Hcount.
  cbv zeta in Hcount. unfold BATCH_SIZE in Hsize.
  assert (length batch = 16%nat) as H16 by lia.
  rewrite H16 in Hcount.
  assert (Z.to_nat (Qfloor (Np.virtual_index 16 PERCENTILE)) = 10%nat) as H10
    by (vm_compute; reflexivity).
  rewrite H10 in Hcount. simpl in Hcount. exact Hcount.
Qed.

Lemma elite_steps_count bound batch :
  nonempty_episodes batch ->
  (length (filter (elite bound) batch)
   <= length (flat_map (contribution bound) batch))%nat.
Proof.
  intros Hne. induction Hne as [|example batch Hx _ IH]; simpl; [lia|].
  rewrite length_app. unfold contribution at 1.
  destruct (elite bound example); simpl; [|lia].
  destruct (steps example); [congruence|simpl; lia].
Qed.

(** X6: with [n] episodes at percentile [q], the episodes at the order
    statistics above position [floor (q/100 * (n-1))] are elite, so at least
    [n - min (k+1) (n-1)] episodes are, and at least one; with the
    notebook's 16 episodes at percentile 70 at least 5 are. *)
Theorem elite_episodes_at_least :
  forall batch q ts,
    filter_batch batch q = Ok ts ->
    let n := length batch in
    let k := Z.to_nat (Qfloor (q / 100 * inject_Z (Z.of_nat (n - 1)))) in
    let elites := length (filter (elite (reward_bound ts)) batch) in
    (n - Nat.min (k + 1) (n - 1) <= elites)%nat /\
    (1 <= elites)%nat /\
    (Z.of_nat n = BATCH_SIZE -> q = PERCENTILE -> 5 <= elites)%nat.
Proof.
  intros batch q ts H n k elites.
  pose proof (elite_count_lower_bound _ _ H) as Hcount.
  cbv zeta in Hcount. unfold Np.virtual_index in Hcount.
  fold n in Hcount. fold k in Hcount. fold elites in Hcount.
  destruct (filter_batch_inputs _ _ H) as (Hb & _ & _).
  assert (0 < n)%nat as Hn
    by (unfold n; destruct batch; simpl; [congruence|lia]).
  split; [exact Hcount|]. split; [lia|].
  intros Hsize Hq. subst q. exact (notebook_batch_elites _ Hsize H).
Qed.

(** X7: the mean reward lies between the least and the greatest episode
    reward, so a batch on which the loop body reaches [break] holds an
    episode with a reward above 199. *)
Theorem solved_batch_has_episode_above_199 :
  forall batch q ts,
    filter_batch batch q = Ok ts ->
    Np.minimum (map reward batch) <= reward_mean ts /\
    reward_mean ts <= Np.maximum (map reward batch) /\
    (199 < reward_mean ts ->
     exists example, In example batch /\ 199 < reward example).
Proof.
  intros batch q ts H.
  destruct (filter_batch_inputs _ _ H) as (Hb & _ & _).
  destruct (filter_batch_ok _ _ H) as (_ & Hm & _).
  destruct (PercentileOrder.mean_between (rewards_nonempty Hb))
    as [Hlo Hhi].
  rewrite Hm. split; [exact Hlo|]. split; [exact Hhi|].
  intros Hsolved.
  destruct (NpFacts.maximum_spec (rewards_nonempty Hb)) as [Hin _].
  apply in_map_iff in Hin. destruct Hin as (example & Hr & Hin).
  exists example. split; [exact Hin|]. rewrite Hr.
  now apply Qlt_le_trans with (Np.mean (map reward batch)).
Qed.


(** X9: at percentile 0 every episode is elite and the training sequences
    hold the steps of the whole batch; at percentile 100 the elite episodes
    are exactly those whose reward is the greatest of the batch. *)
Theorem extreme_percentiles_select :
  forall batch,
    batch <> [] ->
    (exists ts,
        filter_batch batch 0 = Ok ts /\
        Forall (fun example => elite (reward_bound ts) example = true) batch /\
        train_obs_v ts = map observation (flat_map steps batch) /\
        train_act_v ts = map action (flat_map steps batch)) /\
    (exists ts,
        filter_batch batch 100 = Ok ts /\
        forall example,
          In example batch ->
          (elite (reward_bound ts) example = true <->
           reward example == Np.maximum (map reward batch))).
Proof.
  intros batch Hb.
  destruct (NpFacts.minimum_spec (rewards_nonempty Hb)) as [_ Hlb].
  destruct (NpFacts.maximum_spec (rewards_nonempty Hb)) as [_ Hub].
  split.
  - destruct (PercentileFacts.percentile_0 (rewards_nonempty Hb))
      as (r & Hr & Hmin).
    destruct (filter_batch_of_percentile _ _ Hr) as (ts & Hts & <- & _).
    exists ts. split; [exact Hts|].
    assert (forall example, In example batch ->
              elite (reward_bound ts) example = true) as Hel.
    { intros example Hin. apply elite_true. rewrite Hmin.
      apply Hlb. now apply in_map. }
    destruct (filter_batch_ok _ _ Hts) as (_ & _ & Ho & Ha).
    assert (flat_map (contribution (reward_bound ts)) batch
            = flat_map steps batch) as Hflat
      by (now apply all_elite_contribution).
    split; [now apply Forall_forall|]. rewrite Ho, Ha, Hflat. auto.
  - destruct (PercentileFacts.percentile_100 (rewards_nonempty Hb))
      as (r & Hr & Hmax).
    destruct (filter_batch_of_percentile _ _ Hr) as (ts & Hts & <- & _).
    exists ts. split; [exact Hts|].
    intros example Hin. rewrite elite_true, Hmax. split.
    + intros Hle. apply Qle_antisym; [|exact Hle].
      apply Hub. now apply in_map.
    + intros ->. apply Qle_refl.
Qed.

End EliteFilterOrder.

(** ** More on the training loop *)

Section TrainerLog.
Variables Obs EnvSt Rng Params : Type.
Variable Softmax : list score -> list score.
Variable random_choice : Rng -> nat -> list score -> result (Action * Rng).
Variable env : Environment Obs EnvSt.
Variable forward : Params -> Obs -> list score.
Variable update : Params -> list Obs -> list Action -> result (Params * Q).

Implicit Types (t : Trainer Obs EnvSt Rng Params) (batch : Batch Obs).

Lemma iteration_inv p iter_no batch p' lines solved :
  iteration update p iter_no batch = Ok (p', lines, solved) ->
  exists ts loss,
    filter_batch batch PERCENTILE = Ok ts /\
    update p (train_obs_v ts) (train_act_v ts) = Ok (p', loss) /\
    ((solved = true /\ 199 < reward_mean ts /\
      lines = [Report iter_no loss (reward_mean ts) (reward_bound ts);
               SolvedMsg]) \/
     (solved = false /\ reward_mean ts <= 199 /\
      lines = [Report iter_no loss (reward_mean ts) (reward_bound ts)])).
Proof.
  unfold iteration.
  destruct (filter_batch batch PERCENTILE) as [ts|x]; simpl; [|discriminate].
  destruct (update p (train_obs_v ts) (train_act_v ts)) as [[q loss]|x] eqn:Hu;
    simpl; [|discriminate].
  destruct (Np.Qltb SOLVED (reward_mean ts)) eqn:E; intros [= <- <- <-];
    exists ts, loss; (split; [reflexivity|]); (split; [exact Hu|]).
  - left. apply Qltb_true in E. auto.
  - right. apply Qltb_false in E. auto.
Qed.

Lemma iteration_raise p iter_no batch x :
  iteration update p iter_no batch = Raise x ->
  filter_batch batch PERCENTILE = Raise x \/
  exists ts, filter_batch batch PERCENTILE = Ok ts /\
             update p (train_obs_v ts) (train_act_v ts) = Raise x.
Proof.
  unfold iteration.
  destruct (filter_batch batch PERCENTILE) as [ts|y]; simpl.
  - destruct (update p (train_obs_v ts) (train_act_v ts)) as [[q loss]|y]
      eqn:Hu; simpl.
    + destruct (Np.Qltb SOLVED (reward_mean ts)); discriminate.
    + intros [= ->]. right. now exists ts.
  - intros [= ->]. now left.
Qed.



(** X11: in a turn of the loop on a frame of the generator whose closed
    episodes have steps (as they have from the start on), [filter_batch]
    does not raise and the update is given at least 5 training examples,
    observations and actions in equal number, taken from a batch of 16
    episodes; the turn crashes only with what the generator raised or with
    what the update raised on such examples. *)
Theorem trainer_turn_trains_on_five_examples_or_more :
  forall fuel t,
    nonempty_episodes (g_batch (t_gen t)) ->
    let trained x :=
      exists batch g' ts,
        next_batch Softmax random_choice env fuel (forward (t_params t))
          BATCH_SIZE (t_gen t) = Yielded batch g' /\
        Z.of_nat (length batch) = BATCH_SIZE /\
        filter_batch batch PERCENTILE = Ok ts /\
        (5 <= length (train_obs_v ts))%nat /\
        length (train_act_v ts) = length (train_obs_v ts) /\
        nonempty_episodes (g_batch g') /\
        x g' (update (t_params t) (train_obs_v ts) (train_act_v ts)) in
    match trainer_step Softmax random_choice env forward update fuel t with
    | Continue t' | Solved t' =>
        trained (fun g' u => t_gen t' = g' /\
                             exists loss, u = Ok (t_params t', loss))
    | Crashed x =>
        next_batch Softmax random_choice env fuel (forward (t_params t))
          BATCH_SIZE (t_gen t) = Raised x \/
        trained (fun _ u => u = Raise x)
    | Starved =>
        next_batch Softmax random_choice env fuel (forward (t_params t))
          BATCH_SIZE (t_gen t) = OutOfFuel
    end.
Proof.
  intros fuel t Hinv trained. unfold trainer_step.
  destruct (next_batch _ _ _ fuel _ BATCH_SIZE (t_gen t)) as [b g'|x|] eqn:Hn;
    [|now left|reflexivity].
  pose proof Hn as Hn1. apply next_batch_nonempty in Hn1; [|exact Hinv].
  destruct Hn1 as (Hb & Hne & Hinv').
  pose proof Hn as Hn2. apply next_batch_full in Hn2.
  destruct Hn2 as [Hfull _].
  assert (0 <= PERCENTILE /\ PERCENTILE <= 100) as [H0 H100]
    by (split; discriminate).
  destruct (filter_batch_returns Hb H0 H100) as (ts & Hts & _).
  destruct (filter_batch_ok _ _ Hts) as (_ & _ & Ho & Ha).
  assert (5 <= length (train_obs_v ts))%nat as H5.
  { rewrite Ho, length_map.
    pose proof (notebook_batch_elites _ Hfull Hts).
    pose proof (elite_steps_count (reward_bound ts) Hne). lia. }
  assert (length (train_act_v ts) = length (train_obs_v ts)) as Hlen
    by (now rewrite Ho, Ha, !length_map).
  destruct (iteration update (t_params t) (t_iter_no t) b)
    as [[[p' lines] solved]|x] eqn:Hi.
  - destruct (iteration_inv _ _ _ Hi) as (ts' & loss & Hts' & Hu & _).
    assert (ts' = ts) as -> by congruence.
    destruct solved; simpl; unfold trained; exists b, g', ts;
      repeat split; auto; now exists loss.
  - right. destruct (iteration_raise _ _ _ Hi) as [Hf|(ts' & Hts' & Hu)];
      [congruence|].
    assert (ts' = ts) as -> by congruence.
    exists b, g', ts. repeat split; auto.
Qed.

End TrainerLog.

(** ** The training loop on an environment of scripted episode length *)

Section ScriptedTraining.
Variables Obs EnvSt Rng Params : Type.
Variable Softmax : list score -> list score.
Variable random_choice : Rng -> nat -> list score -> result (Action * Rng).
Variable env : Environment Obs EnvSt.
Variable forward : Params -> Obs -> list score.
Variable update : Params -> list Obs -> list Action -> result (Params * Q).

Variable K : nat.
Variable count : EnvSt -> nat.

Hypothesis K_positive : (1 <= K)%nat.
Hypothesis reset_restarts : forall e, count (snd (env_reset env e)) = O.
Hypothesis step_scripted :
  forall e a, (count e < K)%nat ->
    exists o e',
      env_step env e a = Ok (o, 1, Nat.eqb (S (count e)) K, e') /\
      count e' = S (count e).
Hypothesis sampler_total :
  forall p, sampler_accepts Softmax random_choice (forward p).
Hypothesis update_total :
  forall p obs acts, exists p' loss, update p obs acts = Ok (p', loss).

Implicit Types (t : Trainer Obs EnvSt Rng Params).

Lemma Qltb_Qeq (x y z : Q) : y == z -> Np.Qltb x y = Np.Qltb x z.
Proof.
  intros Hyz. destruct (Np.Qltb x z) eqn:E.
  - apply Qltb_true. apply Qltb_true in E. now rewrite Hyz.
  - apply Qltb_false. apply Qltb_false in E. now rewrite Hyz.
Qed.

Lemma K_batch_mean (batch : Batch Obs) ts :
  K_batch K BATCH_SIZE batch ->
  filter_batch batch PERCENTILE = Ok ts ->
  reward_mean ts == inject_Z (Z.of_nat K).
Proof.
  intros [Hlen Hall] Hts.
  destruct (filter_batch_ok _ _ Hts) as (_ & -> & _).
  apply PercentileOrder.mean_constant.
  - destruct batch; [discriminate|simpl; discriminate].
  - intros x Hx. apply in_map_iff in Hx. destruct Hx as (example & <- & Hin).
    rewrite Forall_forall in Hall. now destruct (Hall _ Hin).
Qed.

(** A turn from a frame right after a [yield]: the batch has 16 episodes
    of reward [K], so the turn stops or goes on according to [K] alone. *)
Lemma scripted_turn fuel t :
  scripted_ready K BATCH_SIZE count (t_gen t) ->
  (K * 16 <= fuel)%nat ->
  exists t',
    scripted_ready K BATCH_SIZE count (t_gen t') /\
    t_iter_no t' = S (t_iter_no t) /\
    trainer_step Softmax random_choice env forward update fuel t =
    if Np.Qltb SOLVED (inject_Z (Z.of_nat K)) then Solved t' else Continue t'.
Proof.
  intros (Hinv & Hnil & Hzero) Hfuel.
  assert (1 <= BATCH_SIZE)%Z as Hbs by discriminate.
  pose proof (@next_batch_scripted Obs EnvSt Rng Softmax random_choice env K
                BATCH_SIZE count K_positive reset_restarts step_scripted Hbs
                (forward (t_params t)) fuel (t_gen t) Hinv
                (sampler_total (t_params t))) as H.
  unfold trainer_step.
  destruct (next_batch _ _ _ fuel _ BATCH_SIZE (t_gen t)) as [b g'|x|];
    [|contradiction|].
  - destruct H as [Hb Hready].
    assert (b <> []) as Hne
      by (destruct Hb as [Hlen _]; destruct b; discriminate).
    assert (0 <= PERCENTILE /\ PERCENTILE <= 100) as [H0 H100]
      by (split; discriminate).
    destruct (filter_batch_returns Hne H0 H100) as (ts & Hts & _).
    destruct (update_total (t_params t) (train_obs_v ts) (train_act_v ts))
      as (p' & loss & Hu).
    rewrite (@iteration_ok Obs Params update (t_params t) (t_iter_no t) b ts
               p' loss Hts Hu). cbv zeta.
    rewrite (Qltb_Qeq SOLVED (K_batch_mean Hb Hts)).
    destruct (Np.Qltb SOLVED (inject_Z (Z.of_nat K)));
      eexists; (split; [|split; [|reflexivity]]); simpl; auto.
  - exfalso. unfold turns_left in H. rewrite Hnil, Hzero in H.
    unfold BATCH_SIZE in H. simpl in H. lia.
Qed.

Lemma solved_threshold :
  (Np.Qltb SOLVED (inject_Z (Z.of_nat K)) = true <-> (199 < K)%nat) /\
  (Np.Qltb SOLVED (inject_Z (Z.of_nat K)) = false <-> (K <= 199)%nat).
Proof.
  unfold SOLVED. change 199 with (inject_Z 199).
  rewrite Qltb_true, Qltb_false, <- Zlt_Qlt, <- Zle_Qle. split; lia.
Qed.

(** X12: on an environment whose episodes all last [K] steps of reward 1,
    with a sampler and an update that do not raise and enough fuel for a
    batch per pull, the training loop breaks after its first batch when
    [K] is above 199, and never breaks nor fails when [K] is at most 199:
    cut off after any number of turns it is still running, one batch pulled
    per turn. *)
Theorem scripted_training_stops_iff_K_above_199 :
  forall fuel t,
    scripted_ready K BATCH_SIZE count (t_gen t) ->
    (K * 16 <= fuel)%nat ->
    ((199 < K)%nat ->
     forall iters, exists t',
       training_loop Softmax random_choice env forward update (S iters) fuel t
         = Solved t' /\
       t_iter_no t' = S (t_iter_no t)) /\
    ((K <= 199)%nat ->
     forall iters, exists t',
       training_loop Softmax random_choice env forward update iters fuel t
         = Continue t' /\
       t_iter_no t' = (t_iter_no t + iters)%nat).
Proof.
  intros fuel t Hready Hfuel. destruct solved_threshold as [Hlt Hle]. split.
  - intros HK iters. apply Hlt in HK.
    destruct (scripted_turn t Hready Hfuel) as (t' & _ & Hno & Hstep).
    rewrite HK in Hstep. exists t'. simpl. rewrite Hstep. auto.
  - intros HK iters. apply Hle in HK. revert t Hready.
    induction iters as [|iters IH]; intros t Hready.
    + exists t. simpl. rewrite Nat.add_0_r. auto.
    + destruct (scripted_turn t Hready Hfuel) as (t1 & Hready1 & Hno & Hstep).
      rewrite HK in Hstep. destruct (IH t1 Hready1) as (t' & Hloop & Hno').
      exists t'. simpl. rewrite Hstep. split; [exact Hloop|]. lia.
Qed.

End ScriptedTraining.

(** ** Successive batches against one long rollout *)

Section Batching.
Variables Obs EnvSt Rng : Type.
Variable Softmax : list score -> list score.
Variable random_choice : Rng -> nat -> list score -> result (Action * Rng).
Variable env : Environment Obs EnvSt.

Implicit Types (g : GenState Obs EnvSt Rng) (net : Obs -> list score)
  (batch pre : Batch Obs).

(** A turn of the rollout on a frame holding earlier episodes [pre] before
    the generator's batch does what the generator's turn does, and keeps
    [pre]. *)
Lemma collect_turn_prefix net batch_size pre g :
  collect_turn Softmax random_choice env net (with_batch (pre ++ g_batch g) g)
  = match loop_body Softmax random_choice env net batch_size g with
    | Ok (Some batch, g') => Ok (with_batch (pre ++ batch) g')
    | Ok (None, g') => Ok (with_batch (pre ++ g_batch g') g')
    | Raise x => Raise x
    end.
Proof.
  unfold collect_turn, loop_body, act_probs, with_batch. simpl.
  destruct (random_choice _ _ _) as [[a rng]|x]; simpl; [|reflexivity].
  destruct (env_step env (g_env g) a) as [[[[o r] d] e]|x]; simpl;
    [|reflexivity].
  destruct d; [|reflexivity].
  destruct (env_reset env e) as [o' e'].
  destruct (_ =? _)%Z; simpl; now rewrite app_assoc.
Qed.

Lemma loop_body_batch_grows net batch_size g g' :
  (Z.of_nat (length (g_batch g)) < batch_size)%Z ->
  loop_body Softmax random_choice env net batch_size g = Ok (None, g') ->
  (Z.of_nat (length (g_batch g')) < batch_size)%Z.
Proof.
  intros Hlen Hl. apply loop_body_ok in Hl.
  destruct Hl as (a & rng & o & r & d & e & _ & _ & _ &
                  [(_ & _ & ->)|(_ & _ & _ & _ & Hy)]); [exact Hlen|].
  cbv zeta in Hy. destruct Hy as [(_ & Hout & _)|(Hne & _ & ->)];
    [discriminate|].
  rewrite length_app in Hne |- *. simpl in Hne |- *. lia.
Qed.

(** A pull that yields is a stretch of the rollout: after at most [fuel]
    turns the rollout stands where the generator is suspended, with the
    yielded batch added to the episodes it held. *)
Lemma pull_inside_rollout net batch_size target pre fuel : forall g batch g',
  (Z.of_nat (length (g_batch g)) < batch_size)%Z ->
  (Z.of_nat (length pre) + batch_size <= target)%Z ->
  next_batch Softmax random_choice env fuel net batch_size g
    = Yielded batch g' ->
  exists k, (k <= fuel)%nat /\
    forall extra,
      collect Softmax random_choice env (k + extra) net target
        (with_batch (pre ++ g_batch g) g)
      = collect Softmax random_choice env extra net target
          (with_batch (pre ++ batch) g').
Proof.
  induction fuel as [|fuel IH]; intros g batch g' Hlen Htarget; simpl;
    [discriminate|].
  assert ((Z.of_nat (length (g_batch (with_batch (pre ++ g_batch g) g)))
           <? target)%Z = true) as Hcond.
  { apply Z.ltb_lt. simpl. rewrite length_app. lia. }
  destruct (loop_body _ _ _ net batch_size g) as [[[b|] g1]|x] eqn:Hl;
    [| |discriminate].
  - intros [= <- <-]. exists 1%nat. split; [lia|]. intros extra.
    change (1 + extra)%nat with (S extra).
    cbn [collect]. rewrite Hcond.
    now rewrite (collect_turn_prefix net batch_size pre g), Hl.
  - intros Hn.
    destruct (IH g1 batch g' (loop_body_batch_grows _ _ Hlen Hl) Htarget Hn)
      as (k & Hk & Hrun).
    exists (S k). split; [lia|]. intros extra.
    change (S k + extra)%nat with (S (k + extra)).
    cbn [collect]. rewrite Hcond.
    rewrite (collect_turn_prefix net batch_size pre g), Hl. apply Hrun.
Qed.

Lemma next_batch_restarts net batch_size fuel : forall g batch g',
  next_batch Softmax random_choice env fuel net batch_size g
    = Yielded batch g' ->
  g_batch g' = [].
Proof.
  induction fuel as [|fuel IH]; intros g batch g'; simpl; [discriminate|].
  destruct (loop_body _ _ _ net batch_size g) as [[[b|] g1]|x] eqn:Hl;
    try discriminate.
  - intros [= <- <-]. apply loop_body_ok in Hl.
    destruct Hl as (a & rng & o & r & d & e & _ & _ & _ &
                    [(_ & Hout & _)|(_ & _ & _ & _ & Hy)]);
      [discriminate|].
    cbv zeta in Hy. destruct Hy as [(_ & _ & Hb)|(_ & Hout & _)];
      [exact Hb|discriminate].
  - apply IH.
Qed.

Lemma pulls_inside_rollout net batch_size fuel n : forall g pre,
  (1 <= batch_size)%Z ->
  g_batch g = [] ->
  length (emitted Softmax random_choice env fuel (repeat net n) batch_size g)
    = n ->
  exists k c, (k <= n * fuel)%nat /\
    g_batch c
      = pre ++ concat (emitted Softmax random_choice env fuel (repeat net n)
                         batch_size g) /\
    forall extra,
      collect Softmax random_choice env (k + extra) net
        (Z.of_nat (length pre) + Z.of_nat n * batch_size)
        (with_batch pre g)
      = Collected c.
Proof.
  induction n as [|n IH]; intros g pre Hbs Hnil; simpl.
  - intros _. exists O, (with_batch pre g). split; [lia|].
    split; [simpl; now rewrite app_nil_r|]. intros extra.
    assert ((Z.of_nat (length (g_batch (with_batch pre g)))
             <? Z.of_nat (length pre) + 0)%Z = false) as Hcond
      by (apply Z.ltb_ge; simpl; lia).
    destruct extra; simpl; simpl in Hcond; rewrite Hcond; reflexivity.
  - destruct (next_batch _ _ _ fuel net batch_size g) as [b g'| |] eqn:Hn;
      simpl; try discriminate.
    intros [= Hlen].
    pose proof Hn as Hfull. apply next_batch_full in Hfull.
    destruct Hfull as [Hfull _].
    pose proof (next_batch_restarts _ _ _ _ Hn) as Hnil'.
    destruct (IH g' (pre ++ b) Hbs Hnil' Hlen) as (k2 & c & Hk2 & Hc & Hrun2).
    assert (Z.of_nat (length (g_batch g)) < batch_size)%Z as Hlt
      by (rewrite Hnil; simpl; lia).
    assert (Z.of_nat (length pre) + batch_size
            <= Z.of_nat (length pre) + Z.of_nat (S n) * batch_size)%Z as Ht
      by nia.
    destruct (pull_inside_rollout net pre fuel g Hlt Ht Hn)
      as (k1 & Hk1 & Hrun1).
    exists (k1 + k2)%nat, c. split; [lia|]. split.
    + rewrite Hc. now rewrite app_assoc.
    + intros extra. rewrite <- Nat.add_assoc.
      rewrite Hnil, app_nil_r in Hrun1. rewrite Hrun1.
      replace (Z.of_nat (length pre) + Z.of_nat (S n) * batch_size)%Z
        with (Z.of_nat (length (pre ++ b)) + Z.of_nat n * batch_size)%Z
        by (rewrite length_app; nia).
      apply Hrun2.
Qed.

(** X13: pulled [n] times with the same scorer, the generator loses and
    repeats nothing between its batches: if the [n] pulls yield, the batches
    put end to end are the episodes that the rollout of the last cell
    collects, from the same start, when asked for [n * batch_size]
    episodes. *)
Theorem batches_partition_one_rollout :
  forall fuel net batch_size n e rng,
    (1 <= batch_size)%Z ->
    length (emitted Softmax random_choice env fuel (repeat net n) batch_size
              (gen_init env e rng)) = n ->
    exists c,
      collect Softmax random_choice env (n * fuel) net
        (Z.of_nat n * batch_size) (gen_init env e rng) = Collected c /\
      g_batch c
        = concat (emitted Softmax random_choice env fuel (repeat net n)
                    batch_size (gen_init env e rng)).
Proof.
  intros fuel net batch_size n e rng Hbs Hlen.
  assert (g_batch (gen_init env e rng) = []) as Hnil
    by (unfold gen_init; now destruct (env_reset env e)).
  destruct (@pulls_inside_rollout net batch_size fuel n (gen_init env e rng)
              [] Hbs Hnil Hlen)
    as (k & c & Hk & Hc & Hrun).
  exists c. split; [|exact Hc].
  specialize (Hrun (n * fuel - k)%nat).
  replace (k + (n * fuel - k))%nat with (n * fuel)%nat in Hrun by lia.
  assert (with_batch [] (gen_init env e rng) = gen_init env e rng) as Hw
    by (unfold with_batch; rewrite <- Hnil; now destruct (gen_init env e rng)).
  rewrite Hw in Hrun. exact Hrun.
Qed.

End Batching.

(** ** The further properties at concrete inputs *)

Lemma generator_yields_full_batches_only_witness :
  (0 <= 0)%Z /\
  ~ (exists batch g',
        next_batch softmax_standin first_choice (scripted_env 3) 100 flat_net
          0 (gen_init (scripted_env 3) O O) = Yielded batch g').
Proof.
  split; [lia|]. intros (batch & g' & H).
  exact (proj2 (@generator_yields_full_batches_only nat nat nat
                  softmax_standin first_choice (scripted_env 3) 100%nat
                  [flat_net] 0%Z (gen_init (scripted_env 3) O O))
               ltac:(lia) flat_net batch g' H).
Defined.

Lemma emitted_episodes_are_trajectories_witness :
  Forall (Forall (complete_episode (scripted_env 3)))
         (emitted softmax_standin first_choice (scripted_env 3) 6
            [flat_net; flat_net] 2 (gen_init (scripted_env 3) O O)).
Proof.
  exact (@emitted_episodes_are_trajectories nat nat nat softmax_standin
           first_choice (scripted_env 3) 6%nat [flat_net; flat_net] 2%Z O O).
Defined.

Lemma last_cell_collects_first_batch_witness :
  exists c,
    collect softmax_standin first_choice (scripted_env 2) 32 flat_net
      BATCH_SIZE (gen_init (scripted_env 2) O O) = Collected c /\
    g_batch c = first_batch.
Proof.
  apply (proj1 (proj1 (@last_cell_collects_first_batch nat nat nat
                         softmax_standin first_choice (scripted_env 2)
                         32%nat flat_net BATCH_SIZE O O)
                      ltac:(discriminate))
               first_batch).
  exists first_frame. vm_compute. reflexivity.
Defined.

Lemma higher_percentile_selects_less_witness :
  reward_bound three_at_30 <= reward_bound three_at_70 /\
  (length (train_obs_v three_at_70) <= length (train_obs_v three_at_30))%nat.
Proof.
  destruct (@higher_percentile_selects_less nat three_episodes 30 70
              three_at_30 three_at_70 eq_refl eq_refl
              ltac:(discriminate))
    as (Hb & _ & Ho & _).
  split; [exact Hb|exact Ho].
Defined.

Lemma equal_rewards_keep_whole_batch_witness :
  reward_bound tied_at_70 == 200 /\ reward_mean tied_at_70 == 200 /\
  train_obs_v tied_at_70 = [1; 2; 3; 4; 5]%nat.
Proof.
  destruct (@equal_rewards_keep_whole_batch nat tied_episodes 70 tied_at_70
              200 eq_refl
              ltac:(repeat constructor))
    as (Hb & Hm & _ & Ho & _).
  split; [exact Hb|]. split; [exact Hm|exact Ho].
Defined.

Lemma elite_episodes_at_least_witness :
  (5 <= length (filter (elite (reward_bound first_training_set))
                       first_batch))%nat.
Proof.
  refine (proj2 (proj2 (@elite_episodes_at_least nat first_batch PERCENTILE
                          first_training_set _)) _ eq_refl);
    vm_compute; reflexivity.
Defined.

Lemma solved_batch_has_episode_above_199_witness :
  exists example, In example tied_episodes /\ 199 < reward example.
Proof.
  refine (proj2 (proj2 (@solved_batch_has_episode_above_199 nat tied_episodes
                          70 tied_at_70 _)) _);
    vm_compute; reflexivity.
Defined.


Lemma trainer_turn_trains_on_five_examples_or_more_witness :
  exists (batch : Batch nat) ts,
    Z.of_nat (length batch) = BATCH_SIZE /\
    filter_batch batch PERCENTILE = Ok ts /\
    (5 <= length (train_obs_v ts))%nat.
Proof.
  pose proof (@trainer_turn_trains_on_five_examples_or_more nat nat nat
                (list nat) softmax_standin first_choice (scripted_env 2)
                (fun _ => flat_net) counting_update 32%nat (fresh_trainer 2)
                ltac:(constructor)) as H.
  cbv zeta in H.
  destruct (trainer_step softmax_standin first_choice (scripted_env 2)
              (fun _ => flat_net) counting_update 32 (fresh_trainer 2))
    as [t'|t'|x|].
  - destruct H as (b & g' & ts & _ & Hlen & Hts & H5 & _). now exists b, ts.
  - destruct H as (b & g' & ts & _ & Hlen & Hts & H5 & _). now exists b, ts.
  - destruct H as [Hr|(b & g' & ts & _ & Hlen & Hts & H5 & _)];
      [vm_compute in Hr; discriminate Hr|now exists b, ts].
  - vm_compute in H. discriminate H.
Defined.

Lemma extreme_percentiles_select_witness :
  exists ts,
    filter_batch three_episodes 0 = Ok ts /\
    train_obs_v ts = [1; 2; 3; 4]%nat.
Proof.
  destruct (proj1 (@extreme_percentiles_select nat three_episodes
                     ltac:(discriminate)))
    as (ts & Hts & _ & Ho & _).
  exists ts. split; [exact Hts|exact Ho].
Defined.

Lemma scripted_training_stops_iff_K_above_199_witness :
  exists t',
    training_loop softmax_standin first_choice (scripted_env 200)
      (fun _ => flat_net) counting_update 3 3200 (fresh_trainer 200)
    = Solved t' /\
    t_iter_no t' = 1%nat.
Proof.
  assert (forall e : nat, snd (env_reset (scripted_env 200) e) = O) as Hreset
    by (intros e; reflexivity).
  assert (forall (e : nat) (a : Action), (e < 200)%nat ->
            exists o e',
              env_step (scripted_env 200) e a
                = Ok (o, 1, Nat.eqb (S e) 200, e') /\
              e' = S e) as Hstep
    by (intros e a _; exists (S e), (S e); split; reflexivity).
  assert (forall p : list nat,
            sampler_accepts softmax_standin first_choice
              ((fun _ => flat_net) p)) as Hsampler
    by (intros p; exact first_choice_accepts_flat_net).
  assert (forall (p : list nat) (obs : list nat) (acts : list Action),
            exists p' loss, counting_update p obs acts = Ok (p', loss))
    as Hupdate
    by (intros p obs acts; eexists; eexists; reflexivity).
  assert (1 <= 200)%nat as HK by lia.
  assert (1 <= BATCH_SIZE)%Z as Hbs by discriminate.
  refine (proj1 (@scripted_training_stops_iff_K_above_199 nat nat nat
                   (list nat) softmax_standin first_choice (scripted_env 200)
                   (fun _ => flat_net) counting_update 200 (fun n => n)
                   HK Hreset Hstep Hsampler Hupdate 3200%nat
                   (fresh_trainer 200)
                   (@gen_init_ready nat nat nat (scripted_env 200) 200
                      BATCH_SIZE (fun n => n) HK Hreset Hbs O O)
                   _) _ 2%nat); simpl; lia.
Defined.

Lemma batches_partition_one_rollout_witness :
  exists c,
    collect softmax_standin first_choice (scripted_env 3) (2 * 6) flat_net
      (Z.of_nat 2 * 2) (gen_init (scripted_env 3) O O) = Collected c /\
    g_batch c
      = concat (emitted softmax_standin first_choice (scripted_env 3) 6
                  (repeat flat_net 2) 2 (gen_init (scripted_env 3) O O)).
Proof.
  apply (@batches_partition_one_rollout nat nat nat softmax_standin
           first_choice (scripted_env 3) 6%nat flat_net 2%Z 2%nat O O).
  - lia.
  - vm_compute. reflexivity.
Defined.

